(** * Auction repository: expiry index, sweeper and conditional close

    A shallow embedding of [internal/infra/database/auction/create_auction.go].

    The repository keeps an in-memory map from auction identifier to expiry
    instant next to a MongoDB collection.  A background goroutine sweeps the
    map every ten seconds and closes the auctions whose expiry has passed with
    a conditional update.

    Conventions of the embedding:
    - an instant ([time.Time]) is the number of nanoseconds since the Unix
      epoch, a [time.Duration] is a number of nanoseconds, both in [Z]
      (the saturation of [Time.Add] at the ends of the int64 second range is
      outside the instants a clock produces and is not modelled);
    - the collection is a finite map keyed by [_id], the unique key of a
      MongoDB collection;
    - every call to the driver takes a boolean [fault]: when it is [true] the
      driver returns an error (connectivity, timeout) and the collection is
      left as it was;
    - [time.Now()] is an explicit argument; wall-clock and monotonic readings
      are taken to agree;
    - [range] over the Go map visits the entries in the order of
      [map_to_list]; the repository a sweep tick leaves does not depend on
      that order ([closeEach_Permutation]);
    - calls to the logger do not touch the repository and are left out;
    - each function body runs without interleaving; the interleaving of the
      sweeper goroutine with its callers is the step relation [step], in
      which a sweep tick is one step. *)

From stdpp Require Import gmap strings list fin_maps.
From Stdlib Require Import ZArith Lia Ascii.

Local Open Scope Z_scope.

(** ** Package [time] *)

Module time.

Abbreviation Time := Z.
Abbreviation Duration := Z.

Definition Nanosecond : Duration := 1.
Definition Second : Duration := 1000000000 * Nanosecond.
Definition Minute : Duration := 60 * Second.

(** [t.Unix()]: whole seconds since the epoch, rounded towards minus
    infinity (the nanosecond field of a [Time] is never negative). *)
Definition Unix_of (t : Time) : Z := t `div` Second.

(** The nanosecond field of [t], in [0, 999999999]. *)
Definition Nanosecond_of (t : Time) : Z := t `mod` Second.

(** [time.Unix(sec, nsec)]. *)
Definition Unix (sec nsec : Z) : Time := sec * Second + nsec.

(** [t.Add(d)]. *)
Definition Add (t : Time) (d : Duration) : Time := t + d.

(** [t.After(u)] and [t.Before(u)]: both are strict. *)
Definition After (t u : Time) : bool := bool_decide (u < t).
Definition Before (t u : Time) : bool := bool_decide (t < u).

End time.

(** ** Package [auction_entity] *)

Module auction_entity.

(** Modelled from the spec: the declaration of [AuctionStatus] is not among
    the sources; the data model lists the statuses [New], [Active] and
    [Completed], and the repository code names [Active] and [Completed]. *)
Inductive AuctionStatus : Type := New | Active | Completed.

#[export] Instance AuctionStatus_eq_dec : EqDecision AuctionStatus.
Proof. solve_decision. Defined.

(** The product condition is opaque to the repository: it is copied. *)
Definition ProductCondition : Type := Z.

(** The entity handed to [CreateAuction]; the fields are the ones the
    repository reads. *)
Record Auction : Type := {
  Id : string;
  ProductName : string;
  Category : string;
  Description : string;
  Condition : ProductCondition;
  Status : AuctionStatus;
  Timestamp : time.Time
}.

End auction_entity.

(** ** Package [internal_error] *)

Module internal_error.

Inductive InternalError : Type :=
| NewInternalServerError (message : string).

End internal_error.

Import auction_entity internal_error.

(** ** The stored document *)

Record AuctionEntityMongo : Type := {
  Id : string;
  ProductName : string;
  Category : string;
  Description : string;
  Condition : ProductCondition;
  Status : AuctionStatus;
  Timestamp : Z  (* int64, Unix seconds *)
}.

Definition set_Status (s : AuctionStatus) (d : AuctionEntityMongo) : AuctionEntityMongo :=
  {| Id := Id d; ProductName := ProductName d; Category := Category d;
     Description := Description d; Condition := Condition d;
     Status := s; Timestamp := Timestamp d |}.

(** ** The MongoDB collection, as far as the repository uses it *)

Module mongo.

Record UpdateResult : Type := {
  MatchedCount : Z;
  ModifiedCount : Z
}.

(** [InsertOne]: fails on a driver fault and on a duplicate [_id]; [None] is
    the error, and the collection is then as before. *)
Definition InsertOne (fault : bool) (c : gmap string AuctionEntityMongo)
    (doc : AuctionEntityMongo) : option (gmap string AuctionEntityMongo) :=
  if fault then None
  else match c !! Id doc with
       | Some _ => None
       | None => Some (<[Id doc := doc]> c)
       end.

(** [UpdateOne] with the filter [{_id: id, status: expected}] and the update
    [{$set: {status: new}}].  [None] is a driver error, and the collection is
    then as before. *)
Definition UpdateOne (fault : bool) (c : gmap string AuctionEntityMongo)
    (id : string) (expected new : AuctionStatus)
    : option (gmap string AuctionEntityMongo * UpdateResult) :=
  if fault then None
  else match c !! id with
       | Some doc =>
           if decide (Status doc = expected)
           then Some (<[id := set_Status new doc]> c,
                      {| MatchedCount := 1;
                         ModifiedCount := if decide (expected = new) then 0 else 1 |})
           else Some (c, {| MatchedCount := 0; ModifiedCount := 0 |})
       | None => Some (c, {| MatchedCount := 0; ModifiedCount := 0 |})
       end.

(** [Find] with the filter [{status: s}]: a cursor over the matching
    documents, or [None] when the call fails. *)
Definition Find (fault : bool) (c : gmap string AuctionEntityMongo) (s : AuctionStatus)
    : option (list AuctionEntityMongo) :=
  if fault then None
  else Some (filter (λ d, Status d = s) (map_to_list c).*2).

(** [cursor.All]: the decoded documents, or [None] when decoding fails. *)
Definition All (fault : bool) (cursor : list AuctionEntityMongo)
    : option (list AuctionEntityMongo) :=
  if fault then None else Some cursor.

End mongo.

(** ** The repository *)

Record AuctionRepository : Type := {
  Collection : gmap string AuctionEntityMongo;
  auctionInterval : time.Duration;
  activeAuctions : gmap string time.Time;
  (** [auctionCloserCtx] with [cancelCloser]: whether the context is done. *)
  auctionCloserCtx : bool
}.

Definition with_Collection (c : gmap string AuctionEntityMongo) (ar : AuctionRepository)
    : AuctionRepository :=
  {| Collection := c; auctionInterval := auctionInterval ar;
     activeAuctions := activeAuctions ar; auctionCloserCtx := auctionCloserCtx ar |}.

Definition with_activeAuctions (m : gmap string time.Time) (ar : AuctionRepository)
    : AuctionRepository :=
  {| Collection := Collection ar; auctionInterval := auctionInterval ar;
     activeAuctions := m; auctionCloserCtx := auctionCloserCtx ar |}.

(** *** [closeAuction] *)

Definition closeAuction (fault : bool) (ar : AuctionRepository) (auctionID : string)
    : AuctionRepository * option InternalError :=
  match mongo.UpdateOne fault (Collection ar) auctionID Active Completed with
  | None => (ar, Some (NewInternalServerError "Error closing auction"))
  | Some (c, result) => (with_Collection c ar, None)
  end.

(** *** [CreateAuction] *)

(** The document built from the entity: the timestamp is kept in whole
    seconds. *)
Definition auctionEntityMongo (auctionEntity : Auction) : AuctionEntityMongo :=
  {| Id := auction_entity.Id auctionEntity;
     ProductName := auction_entity.ProductName auctionEntity;
     Category := auction_entity.Category auctionEntity;
     Description := auction_entity.Description auctionEntity;
     Condition := auction_entity.Condition auctionEntity;
     Status := auction_entity.Status auctionEntity;
     Timestamp := time.Unix_of (auction_entity.Timestamp auctionEntity) |}.

Definition CreateAuction (fault : bool) (ar : AuctionRepository) (auctionEntity : Auction)
    : AuctionRepository * option InternalError :=
  match mongo.InsertOne fault (Collection ar) (auctionEntityMongo auctionEntity) with
  | None => (ar, Some (NewInternalServerError "Error trying to insert auction"))
  | Some c =>
      let endTime := time.Add (auction_entity.Timestamp auctionEntity) (auctionInterval ar) in
      (with_activeAuctions
         (<[auction_entity.Id auctionEntity := endTime]> (activeAuctions ar))
         (with_Collection c ar),
       None)
  end.

(** *** [Close] *)

Definition Close (ar : AuctionRepository) : AuctionRepository :=
  {| Collection := Collection ar; auctionInterval := auctionInterval ar;
     activeAuctions := activeAuctions ar; auctionCloserCtx := true |}.

(** *** [closeExpiredAuctions] *)

(** The first loop: the identifiers of the entries that [now] is after. *)
Fixpoint scanExpired (now : time.Time) (entries : list (string * time.Time)) : list string :=
  match entries with
  | [] => []
  | (auctionID, endTime) :: rest =>
      if time.After now endTime
      then auctionID :: scanExpired now rest
      else scanExpired now rest
  end.

(** The scan runs under the read lock; it returns the repository it was given
    together with the slice [expiredAuctions]. *)
Definition expiredAuctions (now : time.Time) (ar : AuctionRepository)
    : AuctionRepository * list string :=
  (ar, scanExpired now (map_to_list (activeAuctions ar))).

(** The second loop.  [faults auctionID] tells whether the update issued for
    [auctionID] hits a driver fault.  Besides the repository the loop yields
    the close attempts it made, in order, each with what [closeAuction]
    returned. *)
Fixpoint closeEach (faults : string → bool) (expired : list string) (ar : AuctionRepository)
    : AuctionRepository * list (string * option InternalError) :=
  match expired with
  | [] => (ar, [])
  | auctionID :: rest =>
      let '(ar1, err) := closeAuction (faults auctionID) ar auctionID in
      let ar2 :=
        match err with
        | Some _ => ar1
        | None => with_activeAuctions (delete auctionID (activeAuctions ar1)) ar1
        end in
      let '(ar3, attempts) := closeEach faults rest ar2 in
      (ar3, (auctionID, err) :: attempts)
  end.

Definition closeExpiredAuctions (now : time.Time) (faults : string → bool)
    (ar : AuctionRepository)
    : AuctionRepository * list (string * option InternalError) :=
  let '(ar0, expired) := expiredAuctions now ar in
  closeEach faults expired ar0.

(** *** [LoadActiveAuctions] *)

(** The loop over the decoded documents.  [clock i] is what [time.Now()]
    returns in iteration [i].  The second component lists the identifiers for
    which a goroutine running [closeAuction] was started. *)
Fixpoint loadEach (interval : time.Duration) (clock : nat → time.Time) (i : nat)
    (auctions : list AuctionEntityMongo) (index : gmap string time.Time)
    : gmap string time.Time * list string :=
  match auctions with
  | [] => (index, [])
  | auction :: rest =>
      let auctionTime := time.Unix (Timestamp auction) 0 in
      let endTime := time.Add auctionTime interval in
      if time.Before (clock i) endTime
      then loadEach interval clock (S i) rest (<[Id auction := endTime]> index)
      else
        let '(index', spawned) := loadEach interval clock (S i) rest index in
        (index', Id auction :: spawned)
  end.

Definition LoadActiveAuctions (findFault decodeFault : bool) (clock : nat → time.Time)
    (ar : AuctionRepository)
    : AuctionRepository * option InternalError * list string :=
  match mongo.Find findFault (Collection ar) Active with
  | None => (ar, Some (NewInternalServerError "Error loading active auctions"), [])
  | Some cursor =>
      match mongo.All decodeFault cursor with
      | None => (ar, Some (NewInternalServerError "Error decoding auctions"), [])
      | Some auctions =>
          let '(index, spawned) :=
            loadEach (auctionInterval ar) clock 0 auctions (activeAuctions ar) in
          (with_activeAuctions index ar, None, spawned)
      end
  end.

(** *** [getAuctionInterval] and [NewAuctionRepository] *)

Module os.

(** [os.Getenv]: the value of the variable, or the empty string when it is
    not set. *)
Definition Getenv (environ : gmap string string) (key : string) : string :=
  default "" (environ !! key).

End os.

Section Configuration.

(** [time.ParseDuration] belongs to the Go library; [None] is its error. *)
Variable ParseDuration : string → option time.Duration.

Definition getAuctionInterval (environ : gmap string string) : time.Duration :=
  let auctionInterval := os.Getenv environ "AUCTION_INTERVAL" in
  match ParseDuration auctionInterval with
  | None => time.Minute * 5
  | Some duration => duration
  end.

(** [database] stands for the contents of the collection [auctions] of the
    database handed in.  The goroutine the constructor starts is the loop of
    the sweeper below. *)
Definition NewAuctionRepository (environ : gmap string string)
    (database : gmap string AuctionEntityMongo) : AuctionRepository :=
  {| Collection := database;
     auctionInterval := getAuctionInterval environ;
     activeAuctions := ∅;
     auctionCloserCtx := false |}.

End Configuration.

(** *** [startAuctionCloser]: the sweeper goroutine next to its callers *)

(** Where the goroutine is: at its [select], or returned. *)
Inductive Closer : Type := Selecting | Returned.

Record Process : Type := {
  repo : AuctionRepository;
  (** [ticker.C] has a buffer of one: whether a tick is waiting in it. *)
  tickerC : bool;
  closer : Closer;
  (** The goroutines [go ar.closeAuction(id)] that have not run yet. *)
  spawned : list string
}.

Inductive Event : Type :=
| TickerFires
    (* the runtime timer sends on [ticker.C]; a tick is dropped when one waits *)
| SelectTick (now : time.Time) (faults : string → bool)
    (* the loop takes [case <-ticker.C] and runs [closeExpiredAuctions] *)
| SelectDone
    (* the loop takes [case <-ar.auctionCloserCtx.Done()] and returns *)
| CallClose
    (* another goroutine calls [ar.Close()], which returns at once *)
| CallCreateAuction (fault : bool) (auctionEntity : Auction)
    (* another goroutine calls [ar.CreateAuction] *)
| CallLoadActiveAuctions (findFault decodeFault : bool) (clock : nat → time.Time)
    (* another goroutine calls [ar.LoadActiveAuctions] *)
| GoCloseAuction (n : nat) (fault : bool)
    (* the [n]-th goroutine started by [LoadActiveAuctions] runs *).

(** One step.  [None]: the event cannot happen in this state.  When both
    cases of the [select] are ready either may be taken. *)
Definition step (p : Process) (e : Event) : option Process :=
  match e with
  | TickerFires =>
      match closer p with
      | Selecting =>
          Some {| repo := repo p; tickerC := true; closer := Selecting;
                  spawned := spawned p |}
      | Returned => None  (* deferred [ticker.Stop()] *)
      end
  | SelectTick now faults =>
      match closer p, tickerC p with
      | Selecting, true =>
          Some {| repo := (closeExpiredAuctions now faults (repo p)).1;
                  tickerC := false; closer := Selecting; spawned := spawned p |}
      | _, _ => None
      end
  | SelectDone =>
      match closer p, auctionCloserCtx (repo p) with
      | Selecting, true =>
          Some {| repo := repo p; tickerC := tickerC p; closer := Returned;
                  spawned := spawned p |}
      | _, _ => None
      end
  | CallClose =>
      Some {| repo := Close (repo p); tickerC := tickerC p; closer := closer p;
              spawned := spawned p |}
  | CallCreateAuction fault auctionEntity =>
      Some {| repo := (CreateAuction fault (repo p) auctionEntity).1;
              tickerC := tickerC p; closer := closer p; spawned := spawned p |}
  | CallLoadActiveAuctions findFault decodeFault clock =>
      let '(ar, _, started) := LoadActiveAuctions findFault decodeFault clock (repo p) in
      Some {| repo := ar; tickerC := tickerC p; closer := closer p;
              spawned := spawned p ++ started |}
  | GoCloseAuction n fault =>
      match spawned p !! n with
      | Some auctionID =>
          Some {| repo := (closeAuction fault (repo p) auctionID).1;
                  tickerC := tickerC p; closer := closer p;
                  spawned := delete n (spawned p) |}
      | None => None
      end
  end.

Fixpoint run (p : Process) (events : list Event) : option Process :=
  match events with
  | [] => Some p
  | e :: rest =>
      match step p e with
      | Some p' => run p' rest
      | None => None
      end
  end.

Definition isSelectTick (e : Event) : bool :=
  match e with SelectTick _ _ => true | _ => false end.

(** The process right after the constructor returned: the goroutine is at
    its [select] and no tick has fired. *)
Definition started (ar : AuctionRepository) : Process :=
  {| repo := ar; tickerC := false; closer := Selecting; spawned := [] |}.

(** The collection is keyed by [_id]. *)
Definition keyed (c : gmap string AuctionEntityMongo) : Prop :=
  ∀ key doc, c !! key = Some doc → Id doc = key.

(** ** Notions used in the statements *)

(** What an attempt on [auctionID] returns under the faults [faults]. *)
Definition attempt (faults : string → bool) (auctionID : string)
    : string * option InternalError :=
  (auctionID,
   if faults auctionID then Some (NewInternalServerError "Error closing auction") else None).

(** What the update of [closeAuction] does to a document stored under
    [auctionID]. *)
Definition closed (faults : string → bool) (auctionID : string) (doc : AuctionEntityMongo)
    : AuctionEntityMongo :=
  if bool_decide (faults auctionID = false ∧ Status doc = Active)
  then set_Status Completed doc else doc.

(** The expiry [LoadActiveAuctions] computes for a document. *)
Definition loadedEndTime (interval : time.Duration) (auction : AuctionEntityMongo)
    : time.Time :=
  time.Add (time.Unix (Timestamp auction) 0) interval.

(** The documents [LoadActiveAuctions] decodes when nothing fails. *)
Definition activeDocuments (ar : AuctionRepository) : list AuctionEntityMongo :=
  filter (λ d, Status d = Active) (map_to_list (Collection ar)).*2.

(** How a stored document may differ from an earlier state of itself: not
    at all, or by the one transition [Active] to [Completed]. *)
Definition evolved (doc doc' : AuctionEntityMongo) : Prop :=
  doc' = doc ∨ (Status doc = Active ∧ doc' = set_Status Completed doc).

(** Every identifier of the index has a document in the collection. *)
Definition indexed_stored (ar : AuctionRepository) : Prop :=
  ∀ id, is_Some (activeAuctions ar !! id) → is_Some (Collection ar !! id).

(** The events in which the first [n] pending goroutines run, in the order
    they were started, without a driver fault. *)
Definition drain (n : nat) : list Event := replicate n (GoCloseAuction 0 false).

Definition isLoadActiveAuctions (e : Event) : bool :=
  match e with CallLoadActiveAuctions _ _ _ => true | _ => false end.

(** An auction out of the sweeper's reach: stored, but neither in the index
    nor awaited by a pending close. *)
Definition unattended (p : Process) (id : string) (doc : AuctionEntityMongo) : Prop :=
  Collection (repo p) !! id = Some doc
  ∧ activeAuctions (repo p) !! id = None
  ∧ id ∉ spawned p.

(** ** Sample data *)

Module sample.

(** A parser for the part of the grammar of [time.ParseDuration] without
    fractions, [[-+]?([0-9]+[a-z]+)+] with the units [ns], [us], [ms], [s],
    [m] and [h]; it serves to run [getAuctionInterval] on examples.  The
    theorems on [getAuctionInterval] hold for every parser that rejects the
    empty string. *)
Definition digit (c : ascii) : option Z :=
  let n := Z.of_N (N_of_ascii c) in
  if bool_decide (48 ≤ n ≤ 57) then Some (n - 48) else None.

Fixpoint leadingInt (s : string) (x : Z) : Z * string :=
  match s with
  | String c rest =>
      match digit c with
      | Some d => leadingInt rest (x * 10 + d)
      | None => (x, s)
      end
  | EmptyString => (x, s)
  end.

Fixpoint leadingUnit (s : string) : string * string :=
  match s with
  | String c rest =>
      if bool_decide (is_Some (digit c) ∨ c = "."%char) then (EmptyString, s)
      else let '(u, r) := leadingUnit rest in (String c u, r)
  | EmptyString => (EmptyString, EmptyString)
  end.

Definition unitMap (u : string) : option Z :=
  if String.eqb u "ns" then Some time.Nanosecond
  else if String.eqb u "us" then Some (1000 * time.Nanosecond)
  else if String.eqb u "ms" then Some (1000000 * time.Nanosecond)
  else if String.eqb u "s" then Some time.Second
  else if String.eqb u "m" then Some time.Minute
  else if String.eqb u "h" then Some (60 * time.Minute)
  else None.

Fixpoint parseTerms (fuel : nat) (s : string) (d : Z) : option Z :=
  match fuel with
  | O => None
  | S fuel' =>
      match s with
      | EmptyString => Some d
      | String c _ =>
          match digit c with
          | None => None
          | Some _ =>
              let '(v, s1) := leadingInt s 0 in
              let '(u, s2) := leadingUnit s1 in
              match unitMap u with
              | None => None
              | Some unit =>
                  let d' := d + v * unit in
                  if bool_decide (2 ^ 63 < d') then None else parseTerms fuel' s2 d'
              end
          end
      end
  end.

Definition ParseDuration (s : string) : option time.Duration :=
  let '(neg, s1) :=
    match s with
    | String "-"%char r => (true, r)
    | String "+"%char r => (false, r)
    | _ => (false, s)
    end in
  if String.eqb s1 "0" then Some 0
  else if String.eqb s1 "" then None
  else match parseTerms (S (String.length s1)) s1 0 with
       | None => None
       | Some d =>
           if neg then Some (- d)
           else if bool_decide (2 ^ 63 - 1 < d) then None else Some d
       end.

Definition entity (id : string) (status : AuctionStatus) (timestamp : time.Time) : Auction :=
  {| auction_entity.Id := id;
     auction_entity.ProductName := "Test Product";
     auction_entity.Category := "Electronics";
     auction_entity.Description := "This is a test product description for testing purposes";
     auction_entity.Condition := 1;
     auction_entity.Status := status;
     auction_entity.Timestamp := timestamp |}.

Definition document (id : string) (status : AuctionStatus) (seconds : Z) : AuctionEntityMongo :=
  {| Id := id; ProductName := "Test Product"; Category := "Electronics";
     Description := "This is a test product description for testing purposes";
     Condition := 1; Status := status; Timestamp := seconds |}.

(** A repository with a two second interval, as the test suite sets it. *)
Definition repository (docs : list AuctionEntityMongo) (index : list (string * time.Time))
    : AuctionRepository :=
  {| Collection := list_to_map ((λ d, (Id d, d)) <$> docs);
     auctionInterval := 2 * time.Second;
     activeAuctions := list_to_map index;
     auctionCloserCtx := false |}.

End sample.

(** * Properties *)

(** ** Records and the clock *)

Lemma with_Collection_id (ar : AuctionRepository) : with_Collection (Collection ar) ar = ar.
Proof. by destruct ar. Qed.

Lemma with_activeAuctions_id (ar : AuctionRepository) :
  with_activeAuctions (activeAuctions ar) ar = ar.
Proof. by destruct ar. Qed.

Lemma After_spec (t u : time.Time) : time.After t u = true ↔ u < t.
Proof. unfold time.After. by rewrite bool_decide_eq_true. Qed.

Lemma Before_spec (t u : time.Time) : time.Before t u = true ↔ t < u.
Proof. unfold time.Before. by rewrite bool_decide_eq_true. Qed.

(** ** The conditional update *)

Section ConditionalClose.

Variables (ar : AuctionRepository) (auctionID : string).

Lemma UpdateOne_miss :
  (∀ doc, Collection ar !! auctionID = Some doc → Status doc ≠ Active) →
  mongo.UpdateOne false (Collection ar) auctionID Active Completed
  = Some (Collection ar, {| mongo.MatchedCount := 0; mongo.ModifiedCount := 0 |}).
Proof.
  intros Hmiss. unfold mongo.UpdateOne.
  destruct (Collection ar !! auctionID) as [doc|] eqn:Hdoc; [|done].
  destruct (decide (Status doc = Active)) as [Heq|]; [|done].
  by destruct (Hmiss doc eq_refl).
Qed.

Lemma UpdateOne_hit (doc : AuctionEntityMongo) :
  Collection ar !! auctionID = Some doc → Status doc = Active →
  mongo.UpdateOne false (Collection ar) auctionID Active Completed
  = Some (<[auctionID := set_Status Completed doc]> (Collection ar),
          {| mongo.MatchedCount := 1; mongo.ModifiedCount := 1 |}).
Proof.
  intros Hdoc Hst. unfold mongo.UpdateOne. rewrite Hdoc.
  destruct (decide (Status doc = Active)); [done | contradiction].
Qed.

Lemma closeAuction_fault :
  closeAuction true ar auctionID
  = (ar, Some (NewInternalServerError "Error closing auction")).
Proof. done. Qed.

Lemma closeAuction_miss :
  (∀ doc, Collection ar !! auctionID = Some doc → Status doc ≠ Active) →
  closeAuction false ar auctionID = (ar, None).
Proof.
  intros Hmiss. unfold closeAuction. rewrite (UpdateOne_miss Hmiss).
  by rewrite with_Collection_id.
Qed.

Lemma closeAuction_hit (doc : AuctionEntityMongo) :
  Collection ar !! auctionID = Some doc → Status doc = Active →
  closeAuction false ar auctionID
  = (with_Collection (<[auctionID := set_Status Completed doc]> (Collection ar)) ar, None).
Proof.
  intros Hdoc Hst. unfold closeAuction. by rewrite (UpdateOne_hit doc Hdoc Hst).
Qed.

(** The error returned is exactly the driver fault. *)
Lemma closeAuction_err (fault : bool) :
  (closeAuction fault ar auctionID).2 = None ↔ fault = false.
Proof.
  unfold closeAuction, mongo.UpdateOne. destruct fault; [done|].
  destruct (Collection ar !! auctionID) as [doc|]; [|done].
  by destruct (decide (Status doc = Active)).
Qed.

(** [closeAuction] touches the collection only. *)
Lemma closeAuction_frame (fault : bool) :
  let ar' := (closeAuction fault ar auctionID).1 in
  activeAuctions ar' = activeAuctions ar
  ∧ auctionInterval ar' = auctionInterval ar
  ∧ auctionCloserCtx ar' = auctionCloserCtx ar.
Proof.
  unfold closeAuction.
  by destruct (mongo.UpdateOne fault (Collection ar) auctionID Active Completed)
    as [[c r]|].
Qed.

(** Documents under other identifiers stay as they are. *)
Lemma closeAuction_other (fault : bool) (id : string) :
  id ≠ auctionID →
  Collection (closeAuction fault ar auctionID).1 !! id = Collection ar !! id.
Proof.
  intros Hne. unfold closeAuction, mongo.UpdateOne. destruct fault; [done|].
  destruct (Collection ar !! auctionID) as [doc|]; [|done].
  destruct (decide (Status doc = Active)); [|done].
  simpl. by rewrite lookup_insert_ne.
Qed.

(** What becomes of the document under [auctionID]. *)
Lemma closeAuction_same (fault : bool) :
  Collection (closeAuction fault ar auctionID).1 !! auctionID
  = (λ doc, if bool_decide (fault = false ∧ Status doc = Active)
            then set_Status Completed doc else doc) <$> Collection ar !! auctionID.
Proof.
  unfold closeAuction, mongo.UpdateOne. destruct fault.
  - simpl. by destruct (Collection ar !! auctionID).
  - destruct (Collection ar !! auctionID) as [doc|] eqn:Hdoc; [|done].
    destruct (decide (Status doc = Active)) as [Hst|Hst]; simpl.
    + rewrite lookup_insert_eq. case_bool_decide as Hc; [done | by destruct Hc].
    + rewrite Hdoc. simpl. case_bool_decide as Hc; [by destruct Hc | done].
Qed.

End ConditionalClose.

(** C1.  Closing is conditioned on the prior status and idempotent.  For
    every repository, identifier and driver outcome: (1) if the call changes
    the repository then there was no fault and the document was [Active];
    (2) on a document that is already [Completed] the repository is left as
    it is, so the document stays [Completed], and when the update returns a
    result that result has matched count zero and [closeAuction] returns nil;
    (3) after a close that returned nil, a second close of the same
    identifier matches zero documents, returns nil and changes nothing. *)
Theorem closeAuction_idempotent (fault : bool) (ar : AuctionRepository) (auctionID : string) :
  let ar1 := (closeAuction fault ar auctionID).1 in
  (ar1 ≠ ar →
     fault = false ∧ ∃ doc, Collection ar !! auctionID = Some doc ∧ Status doc = Active
       ∧ Collection ar1 = <[auctionID := set_Status Completed doc]> (Collection ar))
  ∧ (∀ doc, Collection ar !! auctionID = Some doc → Status doc = Completed →
       ar1 = ar ∧ Status <$> Collection ar1 !! auctionID = Some Completed
       ∧ (fault = false →
            mongo.UpdateOne fault (Collection ar) auctionID Active Completed
            = Some (Collection ar, {| mongo.MatchedCount := 0; mongo.ModifiedCount := 0 |})
            ∧ (closeAuction fault ar auctionID).2 = None))
  ∧ ((closeAuction fault ar auctionID).2 = None →
       mongo.UpdateOne false (Collection ar1) auctionID Active Completed
       = Some (Collection ar1, {| mongo.MatchedCount := 0; mongo.ModifiedCount := 0 |})
       ∧ closeAuction false ar1 auctionID = (ar1, None)).
Proof.
  intros ar1. split; [|split].
  - intros Hchg. destruct fault; [by destruct Hchg|]. split; [done|].
    destruct (Collection ar !! auctionID) as [doc|] eqn:Hdoc.
    + destruct (decide (Status doc = Active)) as [Hst|Hst].
      * exists doc. repeat split; [done|]. unfold ar1.
        by rewrite (closeAuction_hit ar auctionID doc Hdoc Hst).
      * destruct Hchg. unfold ar1. rewrite closeAuction_miss; [done|].
        intros d Hd. congruence.
    + destruct Hchg. unfold ar1. rewrite closeAuction_miss; [done|].
      intros d Hd. congruence.
  - intros doc Hdoc Hst.
    assert (Hmiss : ∀ d, Collection ar !! auctionID = Some d → Status d ≠ Active).
    { intros d Hd. assert (d = doc) as -> by congruence. by rewrite Hst. }
    assert (Har1 : ar1 = ar).
    { unfold ar1. destruct fault; [done|]. by rewrite closeAuction_miss. }
    split; [done|]. split; [by rewrite Har1, Hdoc; simpl; rewrite Hst|].
    intros ->. split; [by apply UpdateOne_miss|]. by rewrite closeAuction_miss.
  - intros Herr. apply closeAuction_err in Herr. subst fault.
    assert (Hmiss : ∀ d, Collection ar1 !! auctionID = Some d → Status d ≠ Active).
    { intros d. unfold ar1. rewrite closeAuction_same.
      destruct (Collection ar !! auctionID) as [doc|]; [|done]. simpl.
      intros [= <-]. case_bool_decide as Hc; [done|].
      intros Hst. apply Hc. by split. }
    split; [by apply UpdateOne_miss | by apply closeAuction_miss].
Qed.

Lemma closeAuction_idempotent_witness :
  let done := sample.document "test-auction-123" Completed 10 in
  let ar := sample.repository [done] [] in
  let live := sample.document "test-auction-active" Active 10 in
  let ar' := sample.repository [live] [] in
  (Collection ar !! "test-auction-123" = Some done ∧ Status done = Completed
   ∧ (closeAuction false ar "test-auction-123").1 = ar
   ∧ mongo.UpdateOne false (Collection ar) "test-auction-123" Active Completed
     = Some (Collection ar, {| mongo.MatchedCount := 0; mongo.ModifiedCount := 0 |})
   ∧ (closeAuction false ar "test-auction-123").2 = None)
  ∧ ((closeAuction false ar' "test-auction-active").1 ≠ ar'
     ∧ ∃ doc, Collection ar' !! "test-auction-active" = Some doc ∧ Status doc = Active)
  ∧ ((closeAuction false ar' "test-auction-active").2 = None
     ∧ closeAuction false (closeAuction false ar' "test-auction-active").1 "test-auction-active"
       = ((closeAuction false ar' "test-auction-active").1, None)).
Proof.
  intros done ar live ar'.
  assert (Hdoc : Collection ar !! "test-auction-123" = Some done) by (vm_compute; reflexivity).
  assert (Hst : Status done = Completed) by reflexivity.
  assert (Hchg : (closeAuction false ar' "test-auction-active").1 ≠ ar').
  { intros Heq.
    apply (f_equal (λ a, Status <$> Collection a !! "test-auction-active")) in Heq.
    vm_compute in Heq. discriminate. }
  assert (Hnil : (closeAuction false ar' "test-auction-active").2 = None) by reflexivity.
  destruct (closeAuction_idempotent false ar "test-auction-123") as (_ & Hcompleted & _).
  destruct (Hcompleted done Hdoc Hst) as (Hsame & _ & Hzero).
  destruct (Hzero eq_refl) as [Hmatched Herr].
  destruct (closeAuction_idempotent false ar' "test-auction-active") as (Honly & _ & Htwice).
  destruct (Honly Hchg) as (_ & doc & Hlive & Hactive & _).
  destruct (Htwice Hnil) as [_ Hsecond].
  repeat split; try assumption. by exists doc.
Defined.

(** ** The expired snapshot *)

Lemma elem_of_scanExpired (now : time.Time) (entries : list (string * time.Time))
    (id : string) :
  id ∈ scanExpired now entries ↔ ∃ endTime, (id, endTime) ∈ entries ∧ endTime < now.
Proof.
  induction entries as [|[auctionID endTime] rest IH]; simpl.
  - split; [by intros ?%elem_of_nil | by intros (? & ?%elem_of_nil & _)].
  - destruct (time.After now endTime) eqn:Hafter.
    + apply After_spec in Hafter. rewrite elem_of_cons, IH. split.
      * intros [-> | (e & He & Hlt)].
        -- exists endTime. split; [left | done].
        -- exists e. split; [by right | done].
      * intros (e & He & Hlt). apply elem_of_cons in He as [[= -> ->] | He].
        -- by left.
        -- right. by exists e.
    + assert (¬ endTime < now) as Hnot.
      { intros Hlt. apply After_spec in Hlt. congruence. }
      rewrite IH. split.
      * intros (e & He & Hlt). exists e. split; [by right | done].
      * intros (e & He & Hlt). apply elem_of_cons in He as [[= -> ->] | He]; [done|].
        by exists e.
Qed.

Lemma scanExpired_sublist (now : time.Time) (entries : list (string * time.Time)) :
  sublist (scanExpired now entries) entries.*1.
Proof.
  induction entries as [|[auctionID endTime] rest IH]; simpl; [constructor|].
  destruct (time.After now endTime); by constructor.
Qed.

Lemma elem_of_expiredAuctions (now : time.Time) (ar : AuctionRepository) (id : string) :
  id ∈ (expiredAuctions now ar).2
  ↔ ∃ endTime, activeAuctions ar !! id = Some endTime ∧ endTime < now.
Proof.
  unfold expiredAuctions. cbn [snd]. rewrite elem_of_scanExpired.
  by setoid_rewrite elem_of_map_to_list.
Qed.

(** C7.  The scan of [closeExpiredAuctions] returns, each once, exactly the
    identifiers whose expiry instant is strictly before [now]; an entry whose
    expiry equals [now] is not among them; and the repository, its index
    included, is after the scan what it was before. *)
Theorem expiredAuctions_exact (now : time.Time) (ar : AuctionRepository) :
  (expiredAuctions now ar).1 = ar
  ∧ NoDup (expiredAuctions now ar).2
  ∧ (∀ id, id ∈ (expiredAuctions now ar).2
           ↔ ∃ endTime, activeAuctions ar !! id = Some endTime ∧ endTime < now)
  ∧ (∀ id, activeAuctions ar !! id = Some now → id ∉ (expiredAuctions now ar).2).
Proof.
  split; [done|]. split; [|split; [apply elem_of_expiredAuctions|]].
  - unfold expiredAuctions. cbn [snd].
    eapply sublist_NoDup; [|apply scanExpired_sublist]. apply NoDup_fst_map_to_list.
  - intros id Hid (endTime & He & Hlt)%elem_of_expiredAuctions.
    pose proof (eq_trans (eq_sym Hid) He) as [= ->]. lia.
Qed.

Lemma expiredAuctions_exact_witness :
  let ar := sample.repository []
              [("a", 99999999999); ("b", 100000000000); ("c", 100000000001)] in
  let now := 100000000000 in
  activeAuctions ar !! "b" = Some now
  ∧ (expiredAuctions now ar).1 = ar
  ∧ "a" ∈ (expiredAuctions now ar).2
  ∧ ("b" ∉ (expiredAuctions now ar).2)
  ∧ ("c" ∉ (expiredAuctions now ar).2).
Proof.
  intros ar now.
  destruct (expiredAuctions_exact now ar) as (Hsame & _ & Hexact & Hequal).
  assert (Hb : activeAuctions ar !! "b" = Some now) by (vm_compute; reflexivity).
  split; [exact Hb|]. split; [exact Hsame|]. split; [|split].
  - apply Hexact. exists 99999999999. split; vm_compute; reflexivity.
  - exact (Hequal "b" Hb).
  - intros (endTime & He & Hlt)%Hexact. vm_compute in He. injection He as <-.
    vm_compute in Hlt. discriminate.
Defined.

(** ** The closing loop *)

Section ClosingLoop.

Variable faults : string → bool.

Lemma closed_closed (auctionID : string) (doc : AuctionEntityMongo) :
  closed faults auctionID (closed faults auctionID doc) = closed faults auctionID doc.
Proof.
  unfold closed.
  destruct (bool_decide (faults auctionID = false ∧ Status doc = Active)) eqn:Hdec.
  - rewrite bool_decide_eq_false_2; [done|]. by intros [_ ?].
  - by rewrite Hdec.
Qed.

Lemma closeAuction_snd (ar : AuctionRepository) (auctionID : string) :
  (auctionID, (closeAuction (faults auctionID) ar auctionID).2) = attempt faults auctionID.
Proof.
  unfold attempt. destruct (faults auctionID) eqn:Hf; [done|].
  f_equal. by apply closeAuction_err.
Qed.

(** One turn of the loop. *)
Lemma closeEach_cons (auctionID : string) (rest : list string) (ar : AuctionRepository) :
  closeEach faults (auctionID :: rest) ar
  = let ar2 :=
      if faults auctionID then ar
      else with_activeAuctions (delete auctionID (activeAuctions ar))
             (closeAuction false ar auctionID).1 in
    ((closeEach faults rest ar2).1, attempt faults auctionID :: (closeEach faults rest ar2).2).
Proof.
  unfold attempt. cbn [closeEach]. destruct (faults auctionID).
  - rewrite closeAuction_fault. cbn zeta. by destruct (closeEach faults rest ar).
  - pose proof (closeAuction_err ar auctionID false) as [_ Herr].
    specialize (Herr eq_refl).
    pose proof (closeAuction_frame ar auctionID false) as (Hidx & _ & _).
    destruct (closeAuction false ar auctionID) as [ar1 err]. cbn [fst snd] in *.
    subst err. cbn zeta. rewrite Hidx.
    by destruct (closeEach faults rest _).
Qed.

(** Every identifier handed to the loop is attempted, in order, whatever the
    earlier attempts returned. *)
Lemma closeEach_attempts (expired : list string) (ar : AuctionRepository) :
  (closeEach faults expired ar).2 = attempt faults <$> expired.
Proof.
  revert ar. induction expired as [|auctionID rest IH]; intros ar; [done|].
  rewrite closeEach_cons. cbn [snd fmap list_fmap]. by rewrite IH.
Qed.

Lemma closeEach_attempted (expired : list string) (ar : AuctionRepository) :
  fst <$> (closeEach faults expired ar).2 = expired.
Proof.
  rewrite closeEach_attempts. induction expired as [|auctionID rest IH]; [done|].
  cbn [fmap list_fmap]. by rewrite IH.
Qed.

Lemma closeEach_index (expired : list string) (ar : AuctionRepository) (id : string) :
  activeAuctions (closeEach faults expired ar).1 !! id
  = if bool_decide (id ∈ expired ∧ faults id = false) then None
    else activeAuctions ar !! id.
Proof.
  revert ar. induction expired as [|auctionID rest IH]; intros ar.
  - rewrite bool_decide_eq_false_2; [done | by intros [?%elem_of_nil _]].
  - rewrite closeEach_cons. cbn [fst]. rewrite IH.
    destruct (faults auctionID) eqn:Hf.
    + apply (f_equal (λ b : bool, if b then None else activeAuctions ar !! id)).
      apply bool_decide_ext. rewrite elem_of_cons.
      split; [intros [? ?]; by split; [right|] |].
      intros [[-> | ?] Hid]; [congruence | done].
    + pose proof (closeAuction_frame ar auctionID false) as (Hidx & _ & _).
      cbn [activeAuctions with_activeAuctions].
      destruct (decide (id = auctionID)) as [-> | Hne].
      * rewrite lookup_delete_eq.
        rewrite (bool_decide_eq_true_2 (_ ∈ _ :: _ ∧ _)) by (split; [left | done]).
        by case_bool_decide.
      * rewrite lookup_delete_ne by done.
        apply (f_equal (λ b : bool, if b then None else activeAuctions ar !! id)).
        apply bool_decide_ext. rewrite elem_of_cons. intuition congruence.
Qed.

Lemma closeEach_Collection (expired : list string) (ar : AuctionRepository) (id : string) :
  Collection (closeEach faults expired ar).1 !! id
  = (if bool_decide (id ∈ expired) then closed faults id else λ doc, doc) <$> Collection ar !! id.
Proof.
  revert ar. induction expired as [|auctionID rest IH]; intros ar.
  - rewrite bool_decide_eq_false_2 by apply not_elem_of_nil.
    cbn [closeEach fst]. by destruct (Collection ar !! id).
  - rewrite closeEach_cons. cbn [fst]. rewrite IH.
    pose proof (closeAuction_same ar auctionID (faults auctionID)) as Hsame.
    pose proof (closeAuction_other ar auctionID (faults auctionID) id) as Hother.
    assert (Hcoll : Collection (if faults auctionID then ar
              else with_activeAuctions (delete auctionID (activeAuctions ar))
                     (closeAuction false ar auctionID).1)
            = Collection (closeAuction (faults auctionID) ar auctionID).1).
    { by destruct (faults auctionID). }
    rewrite Hcoll. clear Hcoll.
    destruct (decide (id = auctionID)) as [-> | Hne].
    + rewrite Hsame. rewrite (bool_decide_eq_true_2 (_ ∈ _ :: _)) by left.
      destruct (Collection ar !! auctionID) as [doc|]; [|done].
      cbn [fmap option_fmap option_map]. fold (closed faults auctionID doc).
      case_bool_decide; [by rewrite closed_closed | done].
    + rewrite Hother by done.
      rewrite (bool_decide_ext (id ∈ auctionID :: rest) (id ∈ rest)); [done|].
      rewrite elem_of_cons. intuition congruence.
Qed.

Lemma closeEach_frame (expired : list string) (ar : AuctionRepository) :
  auctionInterval (closeEach faults expired ar).1 = auctionInterval ar
  ∧ auctionCloserCtx (closeEach faults expired ar).1 = auctionCloserCtx ar.
Proof.
  revert ar. induction expired as [|auctionID rest IH]; intros ar; [done|].
  rewrite closeEach_cons. cbn [fst]. destruct (IH (if faults auctionID then ar
      else with_activeAuctions (delete auctionID (activeAuctions ar))
             (closeAuction false ar auctionID).1)) as [-> ->].
  pose proof (closeAuction_frame ar auctionID false) as (_ & Hint & Hctx).
  by destruct (faults auctionID).
Qed.

(** The order in which the expired identifiers are visited does not matter
    for the repository the loop leaves. *)
Lemma closeEach_Permutation (expired expired' : list string) (ar : AuctionRepository) :
  expired ≡ₚ expired' →
  (closeEach faults expired ar).1 = (closeEach faults expired' ar).1.
Proof.
  intros Hperm.
  assert (Hmem : ∀ id, id ∈ expired ↔ id ∈ expired') by (intros id; by rewrite Hperm).
  pose proof (closeEach_frame expired ar) as [Hint Hctx].
  pose proof (closeEach_frame expired' ar) as [Hint' Hctx'].
  assert (Hcoll : Collection (closeEach faults expired ar).1
                  = Collection (closeEach faults expired' ar).1).
  { apply map_eq. intros id. rewrite !closeEach_Collection.
    by rewrite (bool_decide_ext _ _ (Hmem id)). }
  assert (Hidx : activeAuctions (closeEach faults expired ar).1
                 = activeAuctions (closeEach faults expired' ar).1).
  { apply map_eq. intros id. rewrite !closeEach_index.
    rewrite (bool_decide_ext (id ∈ expired ∧ faults id = false)
               (id ∈ expired' ∧ faults id = false)); [done|].
    by rewrite (Hmem id). }
  destruct (closeEach faults expired ar).1, (closeEach faults expired' ar).1.
  cbn in *. congruence.
Qed.

End ClosingLoop.

(** ** The sweep tick *)

Lemma closeExpiredAuctions_eq (now : time.Time) (faults : string → bool)
    (ar : AuctionRepository) :
  closeExpiredAuctions now faults ar = closeEach faults (expiredAuctions now ar).2 ar.
Proof. done. Qed.

(** C2.  No premature close: for an auction whose indexed expiry is not
    strictly before the [now] of a sweep tick, the tick makes no close
    attempt (issues no update), leaves the stored document, and so its
    status, as it is, and leaves the index entry as it is; this holds
    whatever faults the driver has during the tick. *)
Theorem closeExpiredAuctions_no_premature_close (now : time.Time) (faults : string → bool)
    (ar : AuctionRepository) (id : string) (endTime : time.Time) :
  activeAuctions ar !! id = Some endTime →
  ¬ endTime < now →
  (id ∉ (fst <$> (closeExpiredAuctions now faults ar).2))
  ∧ Collection (closeExpiredAuctions now faults ar).1 !! id = Collection ar !! id
  ∧ activeAuctions (closeExpiredAuctions now faults ar).1 !! id = Some endTime.
Proof.
  intros Hid Hnot. rewrite closeExpiredAuctions_eq.
  assert (Hout : id ∉ (expiredAuctions now ar).2).
  { intros (e & He & Hlt)%elem_of_expiredAuctions. rewrite Hid in He.
    injection He as <-. done. }
  split; [|split].
  - by rewrite closeEach_attempted.
  - rewrite closeEach_Collection, bool_decide_eq_false_2 by done.
    by destruct (Collection ar !! id).
  - rewrite closeEach_index, bool_decide_eq_false_2; [done | by intros [? _]].
Qed.

Lemma closeExpiredAuctions_no_premature_close_witness :
  let ar := sample.repository
              [sample.document "test-auction-active" Active 100;
               sample.document "test-auction-expired" Active 95]
              [("test-auction-active", 102000000000); ("test-auction-expired", 97000000000)] in
  let now := 100000000000 in
  (activeAuctions ar !! "test-auction-active" = Some 102000000000
   ∧ ¬ 102000000000 < now)
  ∧ ("test-auction-active" ∉ (fst <$> (closeExpiredAuctions now (λ _, false) ar).2))
  ∧ Collection (closeExpiredAuctions now (λ _, false) ar).1 !! "test-auction-active"
    = Collection ar !! "test-auction-active"
  ∧ activeAuctions (closeExpiredAuctions now (λ _, false) ar).1 !! "test-auction-active"
    = Some 102000000000.
Proof.
  intros ar now.
  assert (Hidx : activeAuctions ar !! "test-auction-active" = Some 102000000000)
    by (vm_compute; reflexivity).
  assert (Hnot : ¬ 102000000000 < now) by (unfold now; lia).
  split; [done|].
  exact (closeExpiredAuctions_no_premature_close now (λ _, false) ar
           "test-auction-active" 102000000000 Hidx Hnot).
Defined.

(** C4.  For each identifier the tick found expired: the tick attempts it,
    whatever the attempts before it returned, and the attempts are exactly
    the expired identifiers in order; if the attempt does not fail, also when
    no document matched, the identifier is gone from the index; if it fails,
    which is the case exactly on a driver fault, the entry and the stored
    document are as before, so every later tick finds the identifier expired
    again. *)
Theorem closeExpiredAuctions_retry (now : time.Time) (faults : string → bool)
    (ar : AuctionRepository) (id : string) :
  id ∈ (expiredAuctions now ar).2 →
  let result := closeExpiredAuctions now faults ar in
  fst <$> result.2 = (expiredAuctions now ar).2
  ∧ (∃ err, (id, err) ∈ result.2)
  ∧ (∀ err, (id, err) ∈ result.2 →
       (err = None ↔ faults id = false)
       ∧ (err = None → activeAuctions result.1 !! id = None)
       ∧ (err ≠ None →
            activeAuctions result.1 !! id = activeAuctions ar !! id
            ∧ Collection result.1 !! id = Collection ar !! id
            ∧ ∀ later, now ≤ later → id ∈ (expiredAuctions later result.1).2)).
Proof.
  intros Hin result. unfold result. rewrite closeExpiredAuctions_eq.
  split; [by rewrite closeEach_attempted|]. split.
  { exists (attempt faults id).2. rewrite closeEach_attempts.
    by apply (list_elem_of_fmap_2 (attempt faults)). }
  intros err. rewrite closeEach_attempts.
  intros (x & [= <- ->] & _)%list_elem_of_fmap.
  destruct (faults id) eqn:Hf.
  - split; [done|]. split; [done|]. intros _.
    assert (Hidx : activeAuctions (closeEach faults (expiredAuctions now ar).2 ar).1 !! id
                   = activeAuctions ar !! id).
    { rewrite closeEach_index, bool_decide_eq_false_2; [done|]. intros [_ ?]. congruence. }
    split; [done|]. split.
    + rewrite closeEach_Collection, bool_decide_eq_true_2 by done.
      unfold closed. destruct (Collection ar !! id) as [doc|]; [|done].
      cbn [fmap option_fmap option_map].
      rewrite bool_decide_eq_false_2; [done|]. intros [? _]. congruence.
    + intros later Hlater.
      apply elem_of_expiredAuctions in Hin as (endTime & He & Hlt).
      apply elem_of_expiredAuctions. exists endTime. rewrite Hidx. split; [done | lia].
  - split; [done|]. split; [|done]. intros _.
    by rewrite closeEach_index, bool_decide_eq_true_2.
Qed.

Lemma closeExpiredAuctions_retry_witness :
  let ar := sample.repository
              [sample.document "a" Active 95; sample.document "b" Active 96]
              [("a", 97000000000); ("b", 98000000000); ("c", 99000000000)] in
  let now := 100000000000 in
  let faults := λ id, bool_decide (id = "b") in
  let failed := Some (NewInternalServerError "Error closing auction") in
  let result := closeExpiredAuctions now faults ar in
  ("a" ∈ (expiredAuctions now ar).2 ∧ "b" ∈ (expiredAuctions now ar).2
   ∧ "c" ∈ (expiredAuctions now ar).2)
  ∧ (("a", None) ∈ result.2 ∧ ("b", failed) ∈ result.2 ∧ ("c", None) ∈ result.2)
  ∧ fst <$> result.2 = (expiredAuctions now ar).2
  ∧ activeAuctions result.1 !! "a" = None
  ∧ activeAuctions result.1 !! "c" = None
  ∧ activeAuctions result.1 !! "b" = Some 98000000000
  ∧ "b" ∈ (expiredAuctions (now + 10 * time.Second) result.1).2.
Proof.
  intros ar now faults failed result.
  assert (Ha : "a" ∈ (expiredAuctions now ar).2) by (vm_compute; repeat constructor).
  assert (Hb : "b" ∈ (expiredAuctions now ar).2) by (vm_compute; repeat constructor).
  assert (Hc : "c" ∈ (expiredAuctions now ar).2) by (vm_compute; repeat constructor).
  assert (Ha' : ("a", None) ∈ result.2) by (vm_compute; repeat constructor).
  assert (Hb' : ("b", failed) ∈ result.2) by (vm_compute; repeat constructor).
  assert (Hc' : ("c", None) ∈ result.2) by (vm_compute; repeat constructor).
  split; [done|]. split; [done|].
  destruct (closeExpiredAuctions_retry now faults ar "a" Ha) as (Hall & _ & Hgone_a).
  destruct (closeExpiredAuctions_retry now faults ar "c" Hc) as (_ & _ & Hgone_c).
  destruct (closeExpiredAuctions_retry now faults ar "b" Hb) as (_ & _ & Hkept).
  destruct (Hgone_a None Ha') as (_ & Hgone_a' & _).
  destruct (Hgone_c None Hc') as (_ & Hgone_c' & _).
  destruct (Hkept failed Hb') as (_ & _ & Hkept').
  destruct (Hkept' ltac:(discriminate)) as (Hidx & _ & Hlater).
  split; [exact Hall|]. split; [exact (Hgone_a' eq_refl)|].
  split; [exact (Hgone_c' eq_refl)|].
  split; [exact (eq_trans Hidx ltac:(vm_compute; reflexivity))|].
  apply Hlater. unfold time.Second, time.Nanosecond. lia.
Defined.

(** The scenario of [TestAuctionAutoClose]: interval two seconds, an auction
    created three seconds ago is closed by a forced sweep, and a second
    sweep finds nothing to do. *)
Example TestAuctionAutoClose :
  let now := 100000000000 in
  let auction := sample.entity "test-auction-123" Active (time.Add now (-3 * time.Second)) in
  let ar1 := (CreateAuction false (sample.repository [] []) auction).1 in
  let ar2 := (closeExpiredAuctions now (λ _, false) ar1).1 in
  Status <$> Collection ar1 !! "test-auction-123" = Some Active
  ∧ Status <$> Collection ar2 !! "test-auction-123" = Some Completed
  ∧ activeAuctions ar2 = ∅
  ∧ closeExpiredAuctions (time.Add now (10 * time.Second)) (λ _, false) ar2 = (ar2, []).
Proof. repeat split; vm_compute; reflexivity. Qed.

(** ** The collection *)

Lemma keyed_empty : keyed ∅.
Proof. intros key doc. by rewrite lookup_empty. Qed.

Lemma InsertOne_keyed (fault : bool) (c c' : gmap string AuctionEntityMongo)
    (doc : AuctionEntityMongo) :
  keyed c → mongo.InsertOne fault c doc = Some c' → keyed c'.
Proof.
  unfold mongo.InsertOne. intros Hc Hins. destruct fault; [done|].
  destruct (c !! Id doc) eqn:Hfree; [done|]. injection Hins as <-.
  intros key d. rewrite lookup_insert. case_decide as Hk.
  - by intros [= <-].
  - apply Hc.
Qed.

Lemma closeAuction_keyed (fault : bool) (ar : AuctionRepository) (auctionID : string) :
  keyed (Collection ar) → keyed (Collection (closeAuction fault ar auctionID).1).
Proof.
  intros Hc key d. destruct (decide (key = auctionID)) as [-> | Hne].
  - rewrite closeAuction_same.
    destruct (Collection ar !! auctionID) as [doc|] eqn:Hdoc; [|done].
    cbn [fmap option_fmap option_map]. intros [= <-].
    case_bool_decide; [|by apply Hc]. cbn [set_Status Id]. by apply Hc.
  - rewrite closeAuction_other by done. apply Hc.
Qed.

(** The documents read are the [Active] ones, each identifier once. *)
Lemma Find_spec (c : gmap string AuctionEntityMongo) (s : AuctionStatus)
    (auctions : list AuctionEntityMongo) :
  keyed c → mongo.Find false c s = Some auctions →
  NoDup (Id <$> auctions)
  ∧ ∀ doc, doc ∈ auctions ↔ c !! Id doc = Some doc ∧ Status doc = s.
Proof.
  intros Hc [= <-]. split.
  - assert (Hids : Id <$> (map_to_list c).*2 = (map_to_list c).*1).
    { rewrite <- list_fmap_compose. apply list_fmap_ext.
      intros i [key d] Hi. apply Hc. apply elem_of_map_to_list.
      by eapply list_elem_of_lookup_2. }
    eapply sublist_NoDup; [apply (NoDup_fst_map_to_list c)|].
    rewrite <- Hids. apply fmap_sublist, sublist_filter.
  - intros doc. rewrite list_elem_of_filter, list_elem_of_fmap. split.
    + intros [Hst ([key d] & -> & Hin)]. apply elem_of_map_to_list in Hin.
      cbn [snd] in *. by rewrite (Hc key d Hin).
    + intros [Hdoc Hst]. split; [done|]. exists (Id doc, doc).
      split; [done|]. by apply elem_of_map_to_list.
Qed.

(** ** Reconciliation at start-up *)

Section Reconciliation.

Variables (interval : time.Duration) (clock : nat → time.Time).

Lemma loadEach_cons (i : nat) (auction : AuctionEntityMongo)
    (rest : list AuctionEntityMongo) (index : gmap string time.Time) :
  loadEach interval clock i (auction :: rest) index
  = if time.Before (clock i) (loadedEndTime interval auction)
    then loadEach interval clock (S i) rest (<[Id auction := loadedEndTime interval auction]> index)
    else ((loadEach interval clock (S i) rest index).1,
          Id auction :: (loadEach interval clock (S i) rest index).2).
Proof.
  cbn [loadEach]. fold (loadedEndTime interval auction).
  destruct (time.Before (clock i) (loadedEndTime interval auction)); [done|].
  by destruct (loadEach interval clock (S i) rest index).
Qed.

(** Identifiers that are not read keep their entry and start no goroutine. *)
Lemma loadEach_other (i : nat) (auctions : list AuctionEntityMongo)
    (index : gmap string time.Time) (id : string) :
  id ∉ Id <$> auctions →
  (loadEach interval clock i auctions index).1 !! id = index !! id
  ∧ id ∉ (loadEach interval clock i auctions index).2.
Proof.
  revert i index. induction auctions as [|auction rest IH]; intros i index Hout.
  - split; [done | apply not_elem_of_nil].
  - rewrite fmap_cons, not_elem_of_cons in Hout. destruct Hout as [Hne Hout].
    rewrite loadEach_cons.
    destruct (time.Before (clock i) (loadedEndTime interval auction)).
    + destruct (IH (S i) (<[Id auction := loadedEndTime interval auction]> index) Hout) as [-> Hsp].
      split; [by rewrite lookup_insert_ne | done].
    + destruct (IH (S i) index Hout) as [Hidx Hsp]. cbn [fst snd].
      split; [done|]. rewrite not_elem_of_cons. by split.
Qed.

(** The partition, document by document. *)
Lemma loadEach_lookup (i k : nat) (auctions : list AuctionEntityMongo)
    (index : gmap string time.Time) (auction : AuctionEntityMongo) :
  NoDup (Id <$> auctions) →
  auctions !! k = Some auction →
  let result := loadEach interval clock i auctions index in
  (clock (i + k)%nat < loadedEndTime interval auction →
     result.1 !! Id auction = Some (loadedEndTime interval auction) ∧ Id auction ∉ result.2)
  ∧ (¬ clock (i + k)%nat < loadedEndTime interval auction →
     result.1 !! Id auction = index !! Id auction ∧ Id auction ∈ result.2).
Proof.
  revert i k index.
  induction auctions as [|first rest IH]; intros i k index Hnd Hk; [done|].
  rewrite fmap_cons in Hnd. apply NoDup_cons in Hnd as [Hfresh Hnd].
  cbn zeta. rewrite loadEach_cons. destruct k as [|k].
  - injection Hk as ->. rewrite Nat.add_0_r.
    destruct (time.Before (clock i) (loadedEndTime interval auction)) eqn:Hbefore.
    + apply Before_spec in Hbefore. split; [|done]. intros _.
      destruct (loadEach_other (S i) rest
                  (<[Id auction := loadedEndTime interval auction]> index) (Id auction) Hfresh)
        as [-> Hsp].
      by rewrite lookup_insert_eq.
    + assert (¬ clock i < loadedEndTime interval auction) as Hnot.
      { intros Hlt%Before_spec. congruence. }
      split; [done|]. intros _. cbn [fst snd].
      destruct (loadEach_other (S i) rest index (Id auction) Hfresh) as [-> _].
      split; [done | left].
  - cbn [lookup list_lookup] in Hk.
    assert (Id auction ≠ Id first) as Hne.
    { intros Heq. apply Hfresh. rewrite <- Heq.
      apply list_elem_of_fmap_2. by eapply list_elem_of_lookup_2. }
    replace (i + S k)%nat with (S i + k)%nat by lia.
    destruct (time.Before (clock i) (loadedEndTime interval first)).
    + pose proof (IH (S i) k (<[Id first := loadedEndTime interval first]> index) Hnd Hk) as Hrest.
      cbn zeta in Hrest. by rewrite lookup_insert_ne in Hrest.
    + pose proof (IH (S i) k index Hnd Hk) as [Hin Hout]. cbn [fst snd].
      split.
      * intros Hlt. destruct (Hin Hlt) as [-> Hsp]. split; [done|].
        rewrite not_elem_of_cons. by split.
      * intros Hge. destruct (Hout Hge) as [-> Hsp]. split; [done | by right].
Qed.

(** The loop removes no entry. *)
Lemma loadEach_mono (i : nat) (auctions : list AuctionEntityMongo)
    (index : gmap string time.Time) (id : string) :
  is_Some (index !! id) → is_Some ((loadEach interval clock i auctions index).1 !! id).
Proof.
  revert i index. induction auctions as [|auction rest IH]; intros i index Hid; [done|].
  rewrite loadEach_cons. destruct (time.Before (clock i) (loadedEndTime interval auction)).
  - apply IH. rewrite lookup_insert. by case_decide.
  - cbn [fst]. by apply IH.
Qed.

End Reconciliation.

Lemma LoadActiveAuctions_ok (clock : nat → time.Time) (ar : AuctionRepository) :
  LoadActiveAuctions false false clock ar
  = (with_activeAuctions
       (loadEach (auctionInterval ar) clock 0
          (filter (λ d, Status d = Active) (map_to_list (Collection ar)).*2)
          (activeAuctions ar)).1 ar,
     None,
     (loadEach (auctionInterval ar) clock 0
        (filter (λ d, Status d = Active) (map_to_list (Collection ar)).*2)
        (activeAuctions ar)).2).
Proof.
  unfold LoadActiveAuctions, mongo.Find, mongo.All.
  by destruct (loadEach (auctionInterval ar) clock 0 _ (activeAuctions ar)).
Qed.

Lemma LoadActiveAuctions_fault (findFault decodeFault : bool) (clock : nat → time.Time)
    (ar : AuctionRepository) :
  findFault || decodeFault = true →
  (LoadActiveAuctions findFault decodeFault clock ar).1.1 = ar
  ∧ (LoadActiveAuctions findFault decodeFault clock ar).1.2 ≠ None
  ∧ (LoadActiveAuctions findFault decodeFault clock ar).2 = [].
Proof.
  unfold LoadActiveAuctions, mongo.Find, mongo.All.
  destruct findFault; [done|]. by destruct decodeFault.
Qed.

(** [LoadActiveAuctions] writes the index only, and removes no entry. *)
Lemma LoadActiveAuctions_frame (findFault decodeFault : bool) (clock : nat → time.Time)
    (ar : AuctionRepository) :
  let ar' := (LoadActiveAuctions findFault decodeFault clock ar).1.1 in
  Collection ar' = Collection ar
  ∧ auctionInterval ar' = auctionInterval ar
  ∧ auctionCloserCtx ar' = auctionCloserCtx ar
  ∧ ∀ id, is_Some (activeAuctions ar !! id) → is_Some (activeAuctions ar' !! id).
Proof.
  destruct (findFault || decodeFault) eqn:Hfault.
  - destruct (LoadActiveAuctions_fault findFault decodeFault clock ar Hfault) as (Hsame & _).
    cbn zeta. by rewrite Hsame.
  - apply orb_false_elim in Hfault as [-> ->]. rewrite LoadActiveAuctions_ok.
    cbn [fst snd with_activeAuctions Collection auctionInterval auctionCloserCtx activeAuctions].
    split; [done|]. split; [done|]. split; [done|]. intros id. apply loadEach_mono.
Qed.

Lemma LoadActiveAuctions_lookup (clock : nat → time.Time) (ar : AuctionRepository)
    (k : nat) (auction : AuctionEntityMongo) :
  keyed (Collection ar) →
  activeDocuments ar !! k = Some auction →
  let result := LoadActiveAuctions false false clock ar in
  let endTime := time.Add (time.Unix (Timestamp auction) 0) (auctionInterval ar) in
  (clock k < endTime →
     activeAuctions result.1.1 !! Id auction = Some endTime ∧ Id auction ∉ result.2)
  ∧ (¬ clock k < endTime →
     Id auction ∈ result.2
     ∧ activeAuctions result.1.1 !! Id auction = activeAuctions ar !! Id auction).
Proof.
  intros Hkeyed Hk.
  destruct (Find_spec (Collection ar) Active _ Hkeyed eq_refl) as [Hnd _].
  cbn zeta. rewrite LoadActiveAuctions_ok. cbn [fst snd].
  pose proof (loadEach_lookup (auctionInterval ar) clock 0 k (activeDocuments ar)
                (activeAuctions ar) auction Hnd Hk) as [Hin Hout].
  cbn [activeAuctions with_activeAuctions]. split.
  - intros Hlt. by apply Hin.
  - intros Hge. destruct (Hout Hge) as [Hidx Hsp]. by split.
Qed.

(** C3.  [LoadActiveAuctions] partitions the [Active] documents it reads.
    The documents read are exactly the stored documents with status
    [Active].  For the document read in iteration [k], with expiry
    [time.Unix(Timestamp, 0) + interval]: when the clock of that iteration is
    before the expiry, the index maps the identifier to the expiry and no
    close is started for it; otherwise a goroutine running [closeAuction] on
    the identifier is started and the index entry of the identifier is what
    it was before the call, so nothing is added.  Closes are started for
    documents read only. *)
Theorem LoadActiveAuctions_partition (clock : nat → time.Time) (ar : AuctionRepository)
    (auctions : list AuctionEntityMongo) :
  keyed (Collection ar) →
  mongo.Find false (Collection ar) Active = Some auctions →
  let result := LoadActiveAuctions false false clock ar in
  result.1.2 = None
  ∧ Collection result.1.1 = Collection ar
  ∧ (∀ doc, doc ∈ auctions ↔ Collection ar !! Id doc = Some doc ∧ Status doc = Active)
  ∧ (∀ k auction, auctions !! k = Some auction →
       let endTime := time.Add (time.Unix (Timestamp auction) 0) (auctionInterval ar) in
       (clock k < endTime →
          activeAuctions result.1.1 !! Id auction = Some endTime
          ∧ Id auction ∉ result.2)
       ∧ (¬ clock k < endTime →
          Id auction ∈ result.2
          ∧ activeAuctions result.1.1 !! Id auction = activeAuctions ar !! Id auction))
  ∧ (∀ id, id ∈ result.2 → ∃ auction, auction ∈ auctions ∧ Id auction = id).
Proof.
  intros Hkeyed Hfind result.
  destruct (Find_spec _ _ _ Hkeyed Hfind) as [Hnd Hread].
  injection Hfind as Hlist. fold (activeDocuments ar) in Hlist. subst auctions.
  split; [by unfold result; rewrite LoadActiveAuctions_ok|].
  split; [by unfold result; rewrite LoadActiveAuctions_ok|].
  split; [done|]. split.
  - intros k auction Hk. by apply LoadActiveAuctions_lookup.
  - intros id. unfold result. rewrite LoadActiveAuctions_ok. cbn [snd].
    fold (activeDocuments ar). intros Hsp.
    destruct (decide (id ∈ Id <$> activeDocuments ar)) as [Hin | Hout].
    + apply list_elem_of_fmap in Hin as (auction & -> & Hin). by exists auction.
    + by destruct (loadEach_other (auctionInterval ar) clock 0 (activeDocuments ar)
                     (activeAuctions ar) id Hout) as [_ []].
Qed.

Lemma LoadActiveAuctions_partition_witness :
  let live := sample.document "test-auction-active" Active 100 in
  let late := sample.document "test-auction-expired" Active 95 in
  let ar := sample.repository [live; late; sample.document "test-auction-123" Completed 90] [] in
  let clock := λ _ : nat, 100500000000 in
  let result := LoadActiveAuctions false false clock ar in
  (keyed (Collection ar)
   ∧ mongo.Find false (Collection ar) Active = Some [late; live])
  ∧ (activeAuctions result.1.1 !! "test-auction-active" = Some 102000000000
     ∧ "test-auction-active" ∉ result.2)
  ∧ ("test-auction-expired" ∈ result.2
     ∧ activeAuctions result.1.1 !! "test-auction-expired" = None)
  ∧ (Status <$> Collection result.1.1 !! "test-auction-active" = Some Active)
  ∧ ((λ p, Status <$> Collection (repo p) !! "test-auction-expired")
       <$> run (started ar)
             [CallLoadActiveAuctions false false clock; GoCloseAuction 0 false]
      = Some (Some Completed)).
Proof.
  intros live late ar clock result.
  assert (Hkeyed : keyed (Collection ar)).
  { unfold keyed. apply (bool_decide_unpack _). vm_compute. exact I. }
  assert (Hfind : mongo.Find false (Collection ar) Active = Some [late; live])
    by (vm_compute; reflexivity).
  split; [split; assumption|].
  destruct (LoadActiveAuctions_partition clock ar [late; live] Hkeyed Hfind)
    as (_ & Hcoll & _ & Hpart & _).
  destruct (Hpart 1%nat live eq_refl) as [Hin _].
  destruct (Hpart 0%nat late eq_refl) as [_ Hout].
  split; [apply Hin; vm_compute; reflexivity|].
  split; [apply Hout; vm_compute; discriminate|].
  split; [fold result in Hcoll; rewrite Hcoll; vm_compute; reflexivity|].
  vm_compute. reflexivity.
Defined.

(** ** Creation *)

Section Creation.

Variables (ar : AuctionRepository) (auctionEntity : Auction).

(** The insert succeeds exactly when the driver has no fault and the
    identifier is free. *)
Lemma InsertOne_Some (fault : bool) :
  is_Some (mongo.InsertOne fault (Collection ar) (auctionEntityMongo auctionEntity))
  ↔ fault = false ∧ Collection ar !! auction_entity.Id auctionEntity = None.
Proof.
  unfold mongo.InsertOne. cbn [auctionEntityMongo Id].
  destruct fault; [split; [by intros [? ?] | by intros [? _]]|].
  destruct (Collection ar !! auction_entity.Id auctionEntity).
  - split; [by intros [? ?] | by intros [_ ?]].
  - split; [done | by eexists].
Qed.

Lemma CreateAuction_fail (fault : bool) :
  mongo.InsertOne fault (Collection ar) (auctionEntityMongo auctionEntity) = None →
  CreateAuction fault ar auctionEntity
  = (ar, Some (NewInternalServerError "Error trying to insert auction")).
Proof. unfold CreateAuction. by intros ->. Qed.

Lemma CreateAuction_ok (fault : bool) (c : gmap string AuctionEntityMongo) :
  mongo.InsertOne fault (Collection ar) (auctionEntityMongo auctionEntity) = Some c →
  CreateAuction fault ar auctionEntity
  = ({| Collection := c; auctionInterval := auctionInterval ar;
        activeAuctions :=
          <[auction_entity.Id auctionEntity :=
              time.Add (auction_entity.Timestamp auctionEntity) (auctionInterval ar)]>
            (activeAuctions ar);
        auctionCloserCtx := auctionCloserCtx ar |}, None)
  ∧ c = <[auction_entity.Id auctionEntity := auctionEntityMongo auctionEntity]>
        (Collection ar).
Proof.
  unfold CreateAuction. intros Hins. rewrite Hins. split; [done|].
  unfold mongo.InsertOne in Hins. destruct fault; [done|].
  cbn [auctionEntityMongo Id] in Hins.
  destruct (Collection ar !! auction_entity.Id auctionEntity); [done|].
  by injection Hins as <-.
Qed.

(** [CreateAuction] removes no entry and keeps interval and context. *)
Lemma CreateAuction_frame (fault : bool) :
  let ar' := (CreateAuction fault ar auctionEntity).1 in
  auctionInterval ar' = auctionInterval ar
  ∧ auctionCloserCtx ar' = auctionCloserCtx ar
  ∧ (keyed (Collection ar) → keyed (Collection ar'))
  ∧ ∀ key, is_Some (activeAuctions ar !! key) → is_Some (activeAuctions ar' !! key).
Proof.
  destruct (mongo.InsertOne fault (Collection ar) (auctionEntityMongo auctionEntity))
    as [c|] eqn:Hins.
  - destruct (CreateAuction_ok fault c Hins) as [-> _]. cbn.
    split; [done|]. split; [done|]. split.
    + intros Hkeyed. by eapply InsertOne_keyed.
    + intros key Hkey. rewrite lookup_insert. by case_decide.
  - by rewrite (CreateAuction_fail fault Hins).
Qed.

End Creation.

(** C5.  [CreateAuction] is atomic with respect to the index.  If the insert
    fails (driver fault or duplicate identifier) the call returns the error
    and the repository, index and collection, is what it was; if the insert
    succeeds the call returns nil, the collection holds the document, and
    the index is the old index with the identifier mapped to timestamp plus
    interval; and the index changes only when the insert succeeded. *)
Theorem CreateAuction_atomic (fault : bool) (ar : AuctionRepository) (auctionEntity : Auction) :
  let result := CreateAuction fault ar auctionEntity in
  let inserted := mongo.InsertOne fault (Collection ar) (auctionEntityMongo auctionEntity) in
  (inserted = None →
     result.2 = Some (NewInternalServerError "Error trying to insert auction")
     ∧ result.1 = ar)
  ∧ (is_Some inserted →
     result.2 = None
     ∧ Collection result.1 !! auction_entity.Id auctionEntity
       = Some (auctionEntityMongo auctionEntity)
     ∧ activeAuctions result.1
       = <[auction_entity.Id auctionEntity :=
             time.Add (auction_entity.Timestamp auctionEntity) (auctionInterval ar)]>
           (activeAuctions ar))
  ∧ (activeAuctions result.1 ≠ activeAuctions ar → is_Some inserted ∧ result.2 = None)
  ∧ (is_Some inserted ↔ fault = false ∧ Collection ar !! auction_entity.Id auctionEntity = None).
Proof.
  intros result inserted. unfold result.
  split; [|split; [|split]].
  - intros Hins. by rewrite (CreateAuction_fail ar auctionEntity fault Hins).
  - intros [c Hins]. destruct (CreateAuction_ok ar auctionEntity fault c Hins) as [-> ->].
    cbn. by rewrite lookup_insert_eq.
  - intros Hchg. destruct inserted as [c|] eqn:Hins.
    + destruct (CreateAuction_ok ar auctionEntity fault c Hins) as [-> _]. by split.
    + destruct Hchg. by rewrite (CreateAuction_fail ar auctionEntity fault Hins).
  - apply InsertOne_Some.
Qed.

Lemma CreateAuction_atomic_witness :
  let ar := sample.repository [sample.document "test-auction-123" Active 90] [] in
  let taken := sample.entity "test-auction-123" Active 100250000000 in
  let fresh := sample.entity "test-auction-active" Active 100250000000 in
  (mongo.InsertOne false (Collection ar) (auctionEntityMongo taken) = None
   ∧ mongo.InsertOne true (Collection ar) (auctionEntityMongo fresh) = None
   ∧ is_Some (mongo.InsertOne false (Collection ar) (auctionEntityMongo fresh)))
  ∧ (CreateAuction false ar taken).1 = ar
  ∧ (CreateAuction true ar fresh).1 = ar
  ∧ (CreateAuction false ar fresh).2 = None
  ∧ activeAuctions (CreateAuction false ar fresh).1
    = <["test-auction-active" := 102250000000]> (activeAuctions ar).
Proof.
  intros ar taken fresh.
  assert (Hdup : mongo.InsertOne false (Collection ar) (auctionEntityMongo taken) = None)
    by (vm_compute; reflexivity).
  assert (Hfault : mongo.InsertOne true (Collection ar) (auctionEntityMongo fresh) = None)
    by reflexivity.
  assert (Hok : is_Some (mongo.InsertOne false (Collection ar) (auctionEntityMongo fresh)))
    by (apply (bool_decide_unpack _); vm_compute; exact I).
  split; [repeat split; assumption|].
  destruct (CreateAuction_atomic false ar taken) as (Hfail1 & _).
  destruct (CreateAuction_atomic true ar fresh) as (Hfail2 & _).
  destruct (CreateAuction_atomic false ar fresh) as (_ & Hsucc & _).
  destruct (Hfail1 Hdup) as [_ Hsame1]. destruct (Hfail2 Hfault) as [_ Hsame2].
  destruct (Hsucc Hok) as (Hnil & _ & Hidx).
  repeat split; assumption.
Defined.

(** ** The process: what every step keeps *)

Lemma closeExpiredAuctions_frame (now : time.Time) (faults : string → bool)
    (ar : AuctionRepository) :
  let ar' := (closeExpiredAuctions now faults ar).1 in
  auctionInterval ar' = auctionInterval ar
  ∧ auctionCloserCtx ar' = auctionCloserCtx ar
  ∧ (keyed (Collection ar) → keyed (Collection ar')).
Proof.
  cbn zeta. rewrite closeExpiredAuctions_eq.
  destruct (closeEach_frame faults (expiredAuctions now ar).2 ar) as [-> ->].
  split; [done|]. split; [done|].
  intros Hkeyed key doc. rewrite closeEach_Collection.
  destruct (Collection ar !! key) as [d|] eqn:Hd; [|done].
  cbn [fmap option_fmap option_map]. intros [= <-].
  case_bool_decide; [|by apply Hkeyed]. unfold closed.
  case_bool_decide; [|by apply Hkeyed]. cbn [set_Status Id]. by apply Hkeyed.
Qed.

Lemma step_frame (p p' : Process) (e : Event) :
  step p e = Some p' →
  auctionInterval (repo p') = auctionInterval (repo p)
  ∧ (auctionCloserCtx (repo p) = true → auctionCloserCtx (repo p') = true)
  ∧ (keyed (Collection (repo p)) → keyed (Collection (repo p')))
  ∧ (closer p = Returned → closer p' = Returned ∧ isSelectTick e = false)
  ∧ (isSelectTick e = false →
     ∀ key, is_Some (activeAuctions (repo p) !! key)
            → is_Some (activeAuctions (repo p') !! key)).
Proof.
  destruct e as [|now faults| | |fault auctionEntity|findFault decodeFault clock|n fault];
    cbn [step isSelectTick].
  - destruct (closer p) eqn:Hcl; [|done]. by intros [= <-].
  - destruct (closer p) eqn:Hcl; [|done]. destruct (tickerC p); [|done].
    intros [= <-]. cbn [repo closer].
    destruct (closeExpiredAuctions_frame now faults (repo p)) as (-> & -> & Hkeyed).
    by repeat split.
  - destruct (closer p) eqn:Hcl; [|done].
    destruct (auctionCloserCtx (repo p)) eqn:Hctx; [|done].
    by intros [= <-].
  - intros [= <-]. by cbn.
  - intros [= <-]. cbn [repo closer].
    destruct (CreateAuction_frame (repo p) auctionEntity fault) as (-> & -> & Hkeyed & Hidx).
    by repeat split.
  - pose proof (LoadActiveAuctions_frame findFault decodeFault clock (repo p))
      as (Hcoll & Hint & Hctx & Hidx).
    destruct (LoadActiveAuctions findFault decodeFault clock (repo p)) as [[ar err] started].
    cbn [fst] in *. intros [= <-]. cbn [repo closer]. rewrite Hcoll, Hint, Hctx.
    by repeat split.
  - destruct (spawned p !! n) as [auctionID|]; [|done]. intros [= <-]. cbn [repo closer].
    destruct (closeAuction_frame (repo p) auctionID fault) as (-> & -> & ->).
    split; [done|]. split; [done|]. split; [apply closeAuction_keyed|]. by split.
Qed.

Lemma run_frame (events : list Event) (p p' : Process) :
  run p events = Some p' →
  auctionInterval (repo p') = auctionInterval (repo p)
  ∧ (auctionCloserCtx (repo p) = true → auctionCloserCtx (repo p') = true)
  ∧ (keyed (Collection (repo p)) → keyed (Collection (repo p')))
  ∧ (closer p = Returned → closer p' = Returned ∧ forallb (negb ∘ isSelectTick) events = true)
  ∧ (forallb (negb ∘ isSelectTick) events = true →
     ∀ key, is_Some (activeAuctions (repo p) !! key)
            → is_Some (activeAuctions (repo p') !! key)).
Proof.
  revert p. induction events as [|e rest IH]; intros p; cbn [run].
  - by intros [= <-].
  - destruct (step p e) as [q|] eqn:Hstep; [|done]. intros Hrun.
    destruct (step_frame p q e Hstep) as (Hint & Hctx & Hkeyed & Hret & Hidx).
    destruct (IH q Hrun) as (Hint' & Hctx' & Hkeyed' & Hret' & Hidx').
    split; [congruence|]. split; [auto|]. split; [auto|]. split.
    + intros Hcl. destruct (Hret Hcl) as [Hq He]. destruct (Hret' Hq) as [Hp' Hrest].
      split; [done|]. cbn [forallb compose]. by rewrite He, Hrest.
    + cbn [forallb compose]. intros [He Hrest]%andb_prop key Hkey.
      apply Hidx', Hidx; [done | | done]. by destruct (isSelectTick e).
Qed.

(** ** Timestamps in whole seconds *)

Lemma Unix_truncates (t : time.Time) :
  time.Unix (time.Unix_of t) 0 = t - time.Nanosecond_of t
  ∧ 0 ≤ time.Nanosecond_of t < time.Second.
Proof.
  unfold time.Unix, time.Unix_of, time.Nanosecond_of, time.Second, time.Nanosecond.
  pose proof (Z.div_mod t (1000000000 * 1) ltac:(lia)).
  pose proof (Z.mod_pos_bound t (1000000000 * 1) ltac:(lia)). lia.
Qed.

(** C10.  The stored timestamp is the creation timestamp in whole Unix
    seconds.  For an [Active] auction whose insert succeeds, [CreateAuction]
    registers timestamp plus interval, while [LoadActiveAuctions], run while
    the auction is live, registers the timestamp truncated to seconds plus
    interval; the reloaded expiry is never later than the registered one and
    less than one second earlier; and the two agree, as the timestamps do,
    exactly when the creation timestamp has no sub-second part. *)
Theorem timestamp_whole_seconds (clock : nat → time.Time) (ar : AuctionRepository)
    (auctionEntity : Auction) :
  keyed (Collection ar) →
  Collection ar !! auction_entity.Id auctionEntity = None →
  auction_entity.Status auctionEntity = Active →
  let id := auction_entity.Id auctionEntity in
  let timestamp := auction_entity.Timestamp auctionEntity in
  let ar1 := (CreateAuction false ar auctionEntity).1 in
  let created := time.Add timestamp (auctionInterval ar) in
  let loaded := time.Add (time.Unix (time.Unix_of timestamp) 0) (auctionInterval ar) in
  Timestamp <$> Collection ar1 !! id = Some (time.Unix_of timestamp)
  ∧ activeAuctions ar1 !! id = Some created
  ∧ ((∀ i, clock i < loaded) →
       activeAuctions (LoadActiveAuctions false false clock ar1).1.1 !! id = Some loaded)
  ∧ time.Unix (time.Unix_of timestamp) 0 = timestamp - time.Nanosecond_of timestamp
  ∧ loaded ≤ created < loaded + time.Second
  ∧ (loaded = created ↔ time.Nanosecond_of timestamp = 0)
  ∧ (time.Unix (time.Unix_of timestamp) 0 = timestamp ↔ time.Nanosecond_of timestamp = 0).
Proof.
  intros Hkeyed Hfree Hactive id timestamp ar1 created loaded.
  assert (Hins : mongo.InsertOne false (Collection ar) (auctionEntityMongo auctionEntity)
                 = Some (<[id := auctionEntityMongo auctionEntity]> (Collection ar))).
  { unfold mongo.InsertOne. cbn [auctionEntityMongo Id]. by rewrite Hfree. }
  destruct (CreateAuction_ok ar auctionEntity false _ Hins) as [Hcreate _].
  destruct (CreateAuction_frame ar auctionEntity false) as (Hint & _ & Hkeyed1 & _).
  fold ar1 in Hint, Hkeyed1. specialize (Hkeyed1 Hkeyed).
  assert (Hdoc : Collection ar1 !! id = Some (auctionEntityMongo auctionEntity)).
  { unfold ar1. rewrite Hcreate. cbn [fst Collection]. by rewrite lookup_insert_eq. }
  destruct (Unix_truncates timestamp) as [Htrunc Hnano].
  split; [by rewrite Hdoc|].
  split; [by unfold ar1; rewrite Hcreate; cbn [fst activeAuctions]; rewrite lookup_insert_eq|].
  split; [|unfold created, loaded, time.Add; repeat split; lia].
  intros Hlive.
  assert (Hin : auctionEntityMongo auctionEntity ∈ activeDocuments ar1).
  { by apply (Find_spec (Collection ar1) Active _ Hkeyed1 eq_refl). }
  apply list_elem_of_lookup_1 in Hin as [k Hk].
  destruct (LoadActiveAuctions_lookup clock ar1 k _ Hkeyed1 Hk) as [Hreg _].
  cbn [auctionEntityMongo Timestamp Id] in Hreg. rewrite Hint in Hreg.
  by apply Hreg.
Qed.

Lemma timestamp_whole_seconds_witness :
  let ar := sample.repository [] [] in
  let auctionEntity := sample.entity "test-auction-active" Active 100250000000 in
  let clock := λ _ : nat, 100500000000 in
  let ar1 := (CreateAuction false ar auctionEntity).1 in
  (keyed (Collection ar) ∧ Collection ar !! "test-auction-active" = None
   ∧ ∀ i, clock i < 102000000000)
  ∧ Timestamp <$> Collection ar1 !! "test-auction-active" = Some 100
  ∧ activeAuctions ar1 !! "test-auction-active" = Some 102250000000
  ∧ activeAuctions (LoadActiveAuctions false false clock ar1).1.1 !! "test-auction-active"
    = Some 102000000000
  ∧ time.Nanosecond_of 100250000000 ≠ 0.
Proof.
  intros ar auctionEntity clock ar1.
  assert (Hlive : ∀ i, clock i < 102000000000) by (intros i; unfold clock; lia).
  destruct (timestamp_whole_seconds clock ar auctionEntity keyed_empty eq_refl eq_refl)
    as (Hstored & Hcreated & Hloaded & _ & _ & Hiff & _).
  split; [split; [apply keyed_empty | split; [reflexivity | exact Hlive]]|].
  split; [exact Hstored|]. split; [exact Hcreated|]. split; [exact (Hloaded Hlive)|].
  intros Hzero. apply Hiff in Hzero. vm_compute in Hzero. discriminate.
Defined.

(** ** Unconditional registration *)

(** C9.  When the insert succeeds, [CreateAuction] maps the identifier to
    timestamp plus interval whatever the status of the entity and wherever
    that instant lies relative to the present: the function reads no clock
    and no status.  An entry that is already expired stays in the index
    through every step of the process that is not a sweep tick, every sweep
    tick after the expiry finds it, and such a tick removes it when its close
    attempt does not fail. *)
Theorem CreateAuction_registers_unconditionally (ar : AuctionRepository)
    (auctionEntity : Auction) :
  Collection ar !! auction_entity.Id auctionEntity = None →
  let id := auction_entity.Id auctionEntity in
  let ar1 := (CreateAuction false ar auctionEntity).1 in
  let endTime := time.Add (auction_entity.Timestamp auctionEntity) (auctionInterval ar) in
  (CreateAuction false ar auctionEntity).2 = None
  ∧ activeAuctions ar1 !! id = Some endTime
  ∧ Status <$> Collection ar1 !! id = Some (auction_entity.Status auctionEntity)
  ∧ (∀ p events p',
       repo p = ar1 → forallb (negb ∘ isSelectTick) events = true →
       run p events = Some p' → is_Some (activeAuctions (repo p') !! id))
  ∧ (∀ now, endTime < now → id ∈ (expiredAuctions now ar1).2)
  ∧ (∀ now faults, endTime < now → faults id = false →
       activeAuctions (closeExpiredAuctions now faults ar1).1 !! id = None).
Proof.
  intros Hfree id ar1 endTime.
  assert (Hins : mongo.InsertOne false (Collection ar) (auctionEntityMongo auctionEntity)
                 = Some (<[id := auctionEntityMongo auctionEntity]> (Collection ar))).
  { unfold mongo.InsertOne. cbn [auctionEntityMongo Id]. by rewrite Hfree. }
  destruct (CreateAuction_ok ar auctionEntity false _ Hins) as [Hcreate _].
  assert (Hidx : activeAuctions ar1 !! id = Some endTime).
  { unfold ar1. rewrite Hcreate. cbn [fst activeAuctions]. by rewrite lookup_insert_eq. }
  assert (Hexp : ∀ now, endTime < now → id ∈ (expiredAuctions now ar1).2).
  { intros now Hlt. apply elem_of_expiredAuctions. by exists endTime. }
  split; [by rewrite Hcreate|]. split; [done|]. split.
  { unfold ar1. rewrite Hcreate. cbn [fst Collection]. by rewrite lookup_insert_eq. }
  split; [|split; [done|]].
  - intros p events p' Hp Hnotick Hrun.
    destruct (run_frame events p p' Hrun) as (_ & _ & _ & _ & Hkeep).
    apply (Hkeep Hnotick). rewrite Hp, Hidx. by eexists.
  - intros now faults Hlt Hf. rewrite closeExpiredAuctions_eq, closeEach_index.
    rewrite bool_decide_eq_true_2; [done|]. split; [by apply Hexp | done].
Qed.

Lemma CreateAuction_registers_unconditionally_witness :
  let ar := sample.repository [] [] in
  let auctionEntity := sample.entity "test-auction-123" Completed 97000000000 in
  let ar1 := (CreateAuction false ar auctionEntity).1 in
  let now := 100000000000 in
  Collection ar !! "test-auction-123" = None
  ∧ activeAuctions ar1 !! "test-auction-123" = Some 99000000000
  ∧ Status <$> Collection ar1 !! "test-auction-123" = Some Completed
  ∧ is_Some (activeAuctions (Close ar1) !! "test-auction-123")
  ∧ "test-auction-123" ∈ (expiredAuctions now ar1).2
  ∧ activeAuctions (closeExpiredAuctions now (λ _, false) ar1).1 !! "test-auction-123" = None.
Proof.
  intros ar auctionEntity ar1 now.
  destruct (CreateAuction_registers_unconditionally ar auctionEntity eq_refl)
    as (_ & Hidx & Hstatus & Hkeep & Hfound & Hevicted).
  split; [reflexivity|]. split; [exact Hidx|]. split; [exact Hstatus|].
  split; [exact (Hkeep (started ar1) [CallClose] _ eq_refl eq_refl eq_refl)|].
  split; [apply Hfound; vm_compute; reflexivity|].
  apply Hevicted; [vm_compute; reflexivity | reflexivity].
Defined.

(** ** The interval *)

Section Interval.

Variable ParseDuration : string → option time.Duration.

(** [time.ParseDuration] rejects the empty string. *)
Hypothesis ParseDuration_empty : ParseDuration "" = None.

(** C8.  The interval is fixed by the configuration read at construction:
    five minutes when the variable is absent or its value does not parse,
    the parsed duration otherwise.  Construction always yields a repository,
    its interval is that value, and no step of the process changes it. *)
Theorem getAuctionInterval_read_once (environ : gmap string string)
    (database : gmap string AuctionEntityMongo) :
  let interval := getAuctionInterval ParseDuration environ in
  let ar := NewAuctionRepository ParseDuration environ database in
  (environ !! "AUCTION_INTERVAL" = None → interval = 5 * time.Minute)
  ∧ (∀ value, environ !! "AUCTION_INTERVAL" = Some value →
       ParseDuration value = None → interval = 5 * time.Minute)
  ∧ (∀ value duration, environ !! "AUCTION_INTERVAL" = Some value →
       ParseDuration value = Some duration → interval = duration)
  ∧ auctionInterval ar = interval
  ∧ (∀ events p, run (started ar) events = Some p → auctionInterval (repo p) = interval).
Proof.
  intros interval ar. unfold interval, getAuctionInterval, os.Getenv.
  split; [|split; [|split; [|split]]].
  - intros ->. simpl. rewrite ParseDuration_empty. lia.
  - intros value -> Hparse. simpl. rewrite Hparse. lia.
  - intros value duration -> Hparse. simpl. by rewrite Hparse.
  - done.
  - intros events p Hrun. by destruct (run_frame events _ p Hrun) as (-> & _).
Qed.

End Interval.

Lemma getAuctionInterval_read_once_witness :
  let absent : gmap string string := ∅ in
  let broken : gmap string string := {["AUCTION_INTERVAL" := "soon"]} in
  let short : gmap string string := {["AUCTION_INTERVAL" := "2s"]} in
  sample.ParseDuration "" = None
  ∧ getAuctionInterval sample.ParseDuration absent = 300000000000
  ∧ getAuctionInterval sample.ParseDuration broken = 300000000000
  ∧ getAuctionInterval sample.ParseDuration short = 2000000000
  ∧ (auctionInterval ∘ repo
       <$> run (started (NewAuctionRepository sample.ParseDuration short ∅))
             [CallCreateAuction false (sample.entity "test-auction-123" Active 97000000000);
              TickerFires; SelectTick 100000000000 (λ _, false); CallClose; SelectDone])
    = Some 2000000000.
Proof.
  intros absent broken short.
  assert (Hempty : sample.ParseDuration "" = None) by reflexivity.
  destruct (getAuctionInterval_read_once sample.ParseDuration Hempty absent ∅)
    as (Habsent & _).
  destruct (getAuctionInterval_read_once sample.ParseDuration Hempty broken ∅)
    as (_ & Hbroken & _).
  destruct (getAuctionInterval_read_once sample.ParseDuration Hempty short ∅)
    as (_ & _ & Hshort & _ & Hconstant).
  split; [exact Hempty|].
  split; [exact (Habsent eq_refl)|].
  split; [exact (Hbroken "soon" eq_refl eq_refl)|].
  split; [exact (Hshort "2s" 2000000000 eq_refl eq_refl)|].
  destruct (run _ _) as [p|] eqn:Hrun; [|vm_compute in Hrun; discriminate].
  cbn [fmap option_fmap option_map compose]. f_equal.
  rewrite (Hconstant _ p Hrun). exact (Hshort "2s" 2000000000 eq_refl eq_refl).
Defined.

(** ** Stopping the sweeper *)

Lemma Close_Close (ar : AuctionRepository) : Close (Close ar) = Close ar.
Proof. done. Qed.

(** [Close] cancels the context and returns; it does not wait for the
    goroutine.  With a tick waiting in [ticker.C] the [select] may still take
    the ticker case after [Close] has returned: here the sweep that follows
    [Close] closes an auction. *)
Lemma Close_does_not_wait :
  let ar := sample.repository [sample.document "test-auction-123" Active 95]
              [("test-auction-123", 97000000000)] in
  let sweep := SelectTick 100000000000 (λ _, false) in
  ((λ p, Status <$> Collection (repo p) !! "test-auction-123")
     <$> run (started ar) [TickerFires; CallClose] = Some (Some Active)
   ∧ (λ p, Status <$> Collection (repo p) !! "test-auction-123")
       <$> run (started ar) [TickerFires; CallClose; sweep] = Some (Some Completed))
  ∧ ¬ (∀ (ar : AuctionRepository) (before after : list Event) (p : Process),
         run (started ar) (before ++ CallClose :: after) = Some p →
         forallb (negb ∘ isSelectTick) after = true).
Proof.
  intros ar sweep. split; [split; vm_compute; reflexivity|].
  intros Hstops.
  destruct (run (started ar) ([TickerFires] ++ CallClose :: [sweep])) as [p|] eqn:Hrun.
  - specialize (Hstops ar [TickerFires] [sweep] p Hrun). discriminate Hstops.
  - vm_compute in Hrun. discriminate Hrun.
Qed.

(** C6, amended.  [Close] is idempotent and changes nothing but the context,
    which it marks done.  Once done the context stays done through every
    step.  With the context done and no tick waiting, the only step the loop
    can take is the done case, which makes it return; a sweep tick needs a
    waiting tick and a loop that has not returned; and once the loop has
    returned no sweep tick happens in any continuation. *)
Theorem Close_idempotent_cooperative (ar : AuctionRepository) :
  Close (Close ar) = Close ar
  ∧ auctionCloserCtx (Close ar) = true
  ∧ (Collection (Close ar) = Collection ar
     ∧ activeAuctions (Close ar) = activeAuctions ar
     ∧ auctionInterval (Close ar) = auctionInterval ar)
  ∧ (∀ p events p', repo p = Close ar → run p events = Some p' →
       auctionCloserCtx (repo p') = true)
  ∧ (∀ p now faults, repo p = Close ar → tickerC p = false →
       step p (SelectTick now faults) = None)
  ∧ (∀ p, repo p = Close ar → closer p = Selecting →
       ∃ p', step p SelectDone = Some p' ∧ closer p' = Returned ∧ repo p' = repo p)
  ∧ (∀ p now faults p', step p (SelectTick now faults) = Some p' →
       tickerC p = true ∧ closer p = Selecting)
  ∧ (∀ p events p', closer p = Returned → run p events = Some p' →
       closer p' = Returned ∧ forallb (negb ∘ isSelectTick) events = true).
Proof.
  split; [apply Close_Close|]. split; [done|]. split; [done|].
  split; [|split; [|split; [|split]]].
  - intros p events p' Hp Hrun.
    destruct (run_frame events p p' Hrun) as (_ & Hctx & _). apply Hctx. by rewrite Hp.
  - intros p now faults _ Hempty. cbn [step]. rewrite Hempty. by destruct (closer p).
  - intros p Hp Hsel. cbn [step]. rewrite Hsel, Hp. cbn [auctionCloserCtx Close].
    by eexists.
  - intros p now faults p'. cbn [step].
    destruct (closer p); [|done]. by destruct (tickerC p).
  - intros p events p' Hret Hrun.
    destruct (run_frame events p p' Hrun) as (_ & _ & _ & Hstay & _). by apply Hstay.
Qed.

Lemma Close_idempotent_cooperative_witness :
  let ar := sample.repository [sample.document "test-auction-123" Active 95]
              [("test-auction-123", 97000000000)] in
  let sweep := SelectTick 100000000000 (λ _, false) in
  Close (Close ar) = Close ar
  ∧ (auctionCloserCtx ∘ repo
       <$> run (started (Close ar)) [TickerFires; sweep; CallClose]) = Some true
  ∧ step (started (Close ar)) sweep = None
  ∧ (closer <$> step (started (Close ar)) SelectDone) = Some Returned
  ∧ (closer <$> run (started (Close ar)) [SelectDone; CallClose]) = Some Returned
  ∧ run (started (Close ar)) [SelectDone; TickerFires; sweep] = None.
Proof.
  intros ar sweep.
  destruct (Close_idempotent_cooperative ar)
    as (Hidem & _ & _ & Hstays & Hempty & Hdone & _ & Hreturned).
  split; [exact Hidem|]. split.
  { destruct (run _ _) as [p|] eqn:Hrun; [|vm_compute in Hrun; discriminate].
    cbn [fmap option_fmap option_map compose].
    by rewrite (Hstays (started (Close ar)) _ p eq_refl Hrun). }
  split; [exact (Hempty (started (Close ar)) _ _ eq_refl eq_refl)|].
  destruct (Hdone (started (Close ar)) eq_refl eq_refl) as (p1 & Hstep & Hcl & _).
  split; [by rewrite Hstep; cbn; rewrite Hcl|].
  split.
  { destruct (run _ _) as [p|] eqn:Hrun; [|vm_compute in Hrun; discriminate].
    cbn [fmap option_fmap option_map].
    cbn [run] in Hrun. rewrite Hstep in Hrun.
    by destruct (Hreturned p1 [CallClose] p Hcl Hrun) as [-> _]. }
  destruct (run _ _) as [p|] eqn:Hrun; [|done].
  cbn [run] in Hrun. rewrite Hstep in Hrun.
  by destruct (Hreturned p1 [TickerFires; sweep] p Hcl Hrun) as [_ ?].
Defined.

(** * Further properties of the code *)

(** ** The sweep tick as a whole *)

Lemma scanExpired_Permutation (now : time.Time) (entries entries' : list (string * time.Time)) :
  entries ≡ₚ entries' → scanExpired now entries ≡ₚ scanExpired now entries'.
Proof.
  induction 1 as [|[id e] l l' _ IH|[id1 e1] [id2 e2] l|l1 l2 l3 _ IH1 _ IH2];
    cbn [scanExpired].
  - done.
  - destruct (time.After now e); by rewrite IH.
  - destruct (time.After now e1), (time.After now e2); try done. apply perm_swap.
  - by rewrite IH1.
Qed.

(** X1.  The order in which [range] visits the map does not matter: scanning
    the entries of the index in any order and closing the expired ones in
    that order leaves the repository that [closeExpiredAuctions] leaves. *)
Theorem closeExpiredAuctions_any_order (now : time.Time) (faults : string → bool)
    (ar : AuctionRepository) (entries : list (string * time.Time)) :
  entries ≡ₚ map_to_list (activeAuctions ar) →
  (closeEach faults (scanExpired now entries) ar).1
  = (closeExpiredAuctions now faults ar).1.
Proof.
  intros Hperm. rewrite closeExpiredAuctions_eq.
  apply closeEach_Permutation. unfold expiredAuctions. cbn [snd].
  by apply scanExpired_Permutation.
Qed.

Lemma closeExpiredAuctions_any_order_witness :
  let ar := sample.repository
              [sample.document "a" Active 95; sample.document "b" Active 96]
              [("a", 97000000000); ("b", 98000000000); ("c", 101000000000)] in
  let entries := [("c", 101000000000); ("b", 98000000000); ("a", 97000000000)] in
  let faults := λ id, bool_decide (id = "a") in
  entries ≡ₚ map_to_list (activeAuctions ar)
  ∧ scanExpired 100000000000 entries = ["b"; "a"]
  ∧ (closeEach faults ["b"; "a"] ar).1 = (closeExpiredAuctions 100000000000 faults ar).1.
Proof.
  intros ar entries faults.
  assert (Hperm : entries ≡ₚ map_to_list (activeAuctions ar)).
  { apply (bool_decide_unpack _). vm_compute. exact I. }
  split; [exact Hperm|]. split; [reflexivity|].
  exact (closeExpiredAuctions_any_order 100000000000 faults ar entries Hperm).
Defined.

(** X2.  What a tick does to the index: it keeps exactly the entries that
    are not expired or whose close hit a driver fault; it adds none and
    changes no expiry. *)
Theorem closeExpiredAuctions_index (now : time.Time) (faults : string → bool)
    (ar : AuctionRepository) :
  activeAuctions (closeExpiredAuctions now faults ar).1
  = filter (λ entry, ¬ (entry.2 < now ∧ faults entry.1 = false)) (activeAuctions ar).
Proof.
  apply map_eq. intros id. rewrite closeExpiredAuctions_eq, closeEach_index.
  apply option_eq. intros endTime. rewrite map_lookup_filter_Some. cbn [fst snd].
  case_bool_decide as Hgone.
  - destruct Hgone as [(e & He & Hlt)%elem_of_expiredAuctions Hf].
    split; [done|]. intros [Hid Hkeep]. destruct Hkeep.
    pose proof (eq_trans (eq_sym Hid) He) as [= ->]. by split.
  - split; [|by intros [? _]]. intros Hid. split; [done|].
    intros [Hlt Hf]. apply Hgone. split; [|done].
    apply elem_of_expiredAuctions. by exists endTime.
Qed.

Lemma closeExpiredAuctions_index_witness :
  let ar := sample.repository []
              [("a", 97000000000); ("b", 98000000000); ("c", 101000000000)] in
  let faults := λ id, bool_decide (id = "b") in
  activeAuctions (closeExpiredAuctions 100000000000 faults ar).1
  = {["b" := 98000000000; "c" := 101000000000]}.
Proof.
  intros ar faults.
  exact (eq_trans (closeExpiredAuctions_index 100000000000 faults ar)
           ltac:(vm_compute; reflexivity)).
Defined.

(** X3.  Eventual close: an auction whose index entry is expired at [now] and
    whose document is [Active] is, after a tick whose update for it does not
    fault, [Completed] with every other field as stored, and its entry is
    gone from the index. *)
Theorem closeExpiredAuctions_completes (now : time.Time) (faults : string → bool)
    (ar : AuctionRepository) (id : string) (endTime : time.Time)
    (doc : AuctionEntityMongo) :
  activeAuctions ar !! id = Some endTime →
  endTime < now →
  Collection ar !! id = Some doc →
  Status doc = Active →
  faults id = false →
  Collection (closeExpiredAuctions now faults ar).1 !! id = Some (set_Status Completed doc)
  ∧ activeAuctions (closeExpiredAuctions now faults ar).1 !! id = None
  ∧ (id, None) ∈ (closeExpiredAuctions now faults ar).2.
Proof.
  intros Hidx Hlt Hdoc Hactive Hf.
  assert (Hin : id ∈ (expiredAuctions now ar).2).
  { apply elem_of_expiredAuctions. by exists endTime. }
  rewrite closeExpiredAuctions_eq. split; [|split].
  - rewrite closeEach_Collection, bool_decide_eq_true_2, Hdoc by done.
    cbn [fmap option_fmap option_map]. unfold closed.
    by rewrite bool_decide_eq_true_2.
  - by rewrite closeEach_index, bool_decide_eq_true_2.
  - rewrite closeEach_attempts.
    replace (id, None) with (attempt faults id) by (unfold attempt; by rewrite Hf).
    by apply list_elem_of_fmap_2.
Qed.

Lemma closeExpiredAuctions_completes_witness :
  let doc := sample.document "test-auction-123" Active 95 in
  let ar := sample.repository [doc] [("test-auction-123", 97000000000)] in
  let result := closeExpiredAuctions 100000000000 (λ _, false) ar in
  (activeAuctions ar !! "test-auction-123" = Some 97000000000
   ∧ 97000000000 < 100000000000
   ∧ Collection ar !! "test-auction-123" = Some doc)
  ∧ Collection result.1 !! "test-auction-123" = Some (set_Status Completed doc)
  ∧ activeAuctions result.1 !! "test-auction-123" = None
  ∧ ("test-auction-123", None) ∈ result.2.
Proof.
  intros doc ar result.
  assert (Hidx : activeAuctions ar !! "test-auction-123" = Some 97000000000)
    by (vm_compute; reflexivity).
  assert (Hlt : 97000000000 < 100000000000) by lia.
  assert (Hdoc : Collection ar !! "test-auction-123" = Some doc) by (vm_compute; reflexivity).
  split; [by repeat split|].
  exact (closeExpiredAuctions_completes 100000000000 (λ _, false) ar "test-auction-123"
           97000000000 doc Hidx Hlt Hdoc eq_refl eq_refl).
Defined.

(** X4.  What a tick never does to the collection: it adds no document and
    removes none, and a document that differs after the tick was [Active],
    had an expired index entry, had no driver fault on its update, and
    differs in its status only, which is [Completed]. *)
Theorem closeExpiredAuctions_collection (now : time.Time) (faults : string → bool)
    (ar : AuctionRepository) (id : string) :
  let ar' := (closeExpiredAuctions now faults ar).1 in
  (Collection ar' !! id = None ↔ Collection ar !! id = None)
  ∧ (∀ doc doc', Collection ar !! id = Some doc → Collection ar' !! id = Some doc' →
       doc' ≠ doc →
       doc' = set_Status Completed doc ∧ Status doc = Active ∧ faults id = false
       ∧ ∃ endTime, activeAuctions ar !! id = Some endTime ∧ endTime < now).
Proof.
  cbn zeta. rewrite closeExpiredAuctions_eq, closeEach_Collection. split.
  - by destruct (Collection ar !! id).
  - intros doc doc' -> [= <-] Hchg. case_bool_decide as Hin; [|done].
    unfold closed in *. case_bool_decide as Hc; [|done]. destruct Hc as [Hf Hactive].
    split; [done|]. split; [done|]. split; [done|]. by apply elem_of_expiredAuctions.
Qed.

Lemma closeExpiredAuctions_collection_witness :
  let doc := sample.document "test-auction-123" Active 95 in
  let ar := sample.repository [doc] [("test-auction-123", 97000000000)] in
  let ar' := (closeExpiredAuctions 100000000000 (λ _, false) ar).1 in
  (Collection ar !! "test-auction-123" = Some doc
   ∧ Collection ar' !! "test-auction-123" = Some (set_Status Completed doc)
   ∧ set_Status Completed doc ≠ doc)
  ∧ Status doc = Active
  ∧ (∃ endTime, activeAuctions ar !! "test-auction-123" = Some endTime
                ∧ endTime < 100000000000)
  ∧ Collection ar' !! "absent" = None.
Proof.
  intros doc ar ar'.
  assert (Hdoc : Collection ar !! "test-auction-123" = Some doc) by (vm_compute; reflexivity).
  assert (Hdoc' : Collection ar' !! "test-auction-123" = Some (set_Status Completed doc))
    by (vm_compute; reflexivity).
  assert (Hne : set_Status Completed doc ≠ doc) by discriminate.
  split; [by repeat split|].
  destruct (closeExpiredAuctions_collection 100000000000 (λ _, false) ar "test-auction-123")
    as [_ Hchanged].
  destruct (Hchanged doc _ Hdoc Hdoc' Hne) as (_ & Hactive & _ & Hexpired).
  split; [exact Hactive|]. split; [exact Hexpired|].
  destruct (closeExpiredAuctions_collection 100000000000 (λ _, false) ar "absent")
    as [Hnone _].
  apply Hnone. vm_compute. reflexivity.
Defined.

(** X5.  A tick without driver faults leaves nothing to do: a tick at the
    same or an earlier instant right after it makes no attempt and returns
    the repository as it is, whatever its own faults. *)
Theorem closeExpiredAuctions_settles (now earlier : time.Time)
    (faults faults' : string → bool) (ar : AuctionRepository) :
  (∀ id, id ∈ (expiredAuctions now ar).2 → faults id = false) →
  earlier ≤ now →
  let ar' := (closeExpiredAuctions now faults ar).1 in
  closeExpiredAuctions earlier faults' ar' = (ar', []).
Proof.
  intros Hclean Hle ar'.
  assert (Hnone : (expiredAuctions earlier ar').2 = []).
  { apply elem_of_nil_inv. intros id (e & He & Hlt)%elem_of_expiredAuctions.
    unfold ar' in He. rewrite closeExpiredAuctions_eq, closeEach_index in He.
    case_bool_decide as Hgone; [done|]. apply Hgone.
    assert (id ∈ (expiredAuctions now ar).2) as Hin.
    { apply elem_of_expiredAuctions. exists e. split; [done | lia]. }
    by split; [|apply Hclean]. }
  by rewrite closeExpiredAuctions_eq, Hnone.
Qed.

Lemma closeExpiredAuctions_settles_witness :
  let ar := sample.repository
              [sample.document "a" Active 95; sample.document "b" Completed 96]
              [("a", 97000000000); ("b", 98000000000); ("c", 101000000000)] in
  let ar' := (closeExpiredAuctions 100000000000 (λ _, false) ar).1 in
  (∀ id, id ∈ (expiredAuctions 100000000000 ar).2 → (λ _ : string, false) id = false)
  ∧ closeExpiredAuctions 100000000000 (λ _, true) ar' = (ar', [])
  ∧ activeAuctions ar' !! "c" = Some 101000000000.
Proof.
  intros ar ar'.
  assert (Hclean : ∀ id, id ∈ (expiredAuctions 100000000000 ar).2
                         → (λ _ : string, false) id = false) by done.
  split; [exact Hclean|]. split.
  - exact (closeExpiredAuctions_settles 100000000000 100000000000 (λ _, false) (λ _, true)
             ar Hclean ltac:(lia)).
  - vm_compute. reflexivity.
Defined.

(** ** What the process keeps, step after step *)

Lemma evolved_trans (doc1 doc2 doc3 : AuctionEntityMongo) :
  evolved doc1 doc2 → evolved doc2 doc3 → evolved doc1 doc3.
Proof.
  intros [-> | [Hactive ->]] H23; [done|].
  destruct H23 as [-> | [Hactive' _]]; [by right | done].
Qed.

Lemma closed_evolved (faults : string → bool) (id : string) (doc : AuctionEntityMongo) :
  evolved doc (closed faults id doc).
Proof.
  unfold closed. case_bool_decide as Hc; [|by left]. right. by destruct Hc.
Qed.

Lemma step_evolved (p p' : Process) (e : Event) (id : string) (doc : AuctionEntityMongo) :
  step p e = Some p' →
  Collection (repo p) !! id = Some doc →
  ∃ doc', Collection (repo p') !! id = Some doc' ∧ evolved doc doc'.
Proof.
  intros Hstep Hdoc.
  destruct e as [|now faults| | |fault auctionEntity|findFault decodeFault clock|n fault];
    cbn [step] in Hstep.
  - destruct (closer p); [|done]. injection Hstep as <-. exists doc. by split; [|left].
  - destruct (closer p); [|done]. destruct (tickerC p); [|done]. injection Hstep as <-.
    cbn [repo]. rewrite closeExpiredAuctions_eq, closeEach_Collection, Hdoc.
    cbn [fmap option_fmap option_map]. case_bool_decide.
    + eexists. split; [done|]. apply closed_evolved.
    + exists doc. by split; [|left].
  - destruct (closer p); [|done]. destruct (auctionCloserCtx (repo p)); [|done].
    injection Hstep as <-. exists doc. by split; [|left].
  - injection Hstep as <-. exists doc. by split; [|left].
  - injection Hstep as <-. cbn [repo]. exists doc. split; [|by left].
    destruct (mongo.InsertOne fault (Collection (repo p)) (auctionEntityMongo auctionEntity))
      as [c|] eqn:Hins.
    + destruct (CreateAuction_ok (repo p) auctionEntity fault c Hins) as [-> ->].
      cbn [fst Collection].
      assert (is_Some (mongo.InsertOne fault (Collection (repo p))
                         (auctionEntityMongo auctionEntity))) as Hsome by by eexists.
      apply InsertOne_Some in Hsome as [_ Hfree].
      rewrite lookup_insert_ne; [done|]. intros <-. congruence.
    + by rewrite (CreateAuction_fail (repo p) auctionEntity fault Hins).
  - pose proof (LoadActiveAuctions_frame findFault decodeFault clock (repo p)) as (Hcoll & _).
    destruct (LoadActiveAuctions findFault decodeFault clock (repo p)) as [[ar err] started].
    cbn [fst] in Hcoll. injection Hstep as <-. cbn [repo]. rewrite Hcoll.
    exists doc. by split; [|left].
  - destruct (spawned p !! n) as [auctionID|]; [|done]. injection Hstep as <-. cbn [repo].
    destruct (decide (id = auctionID)) as [-> | Hne].
    + rewrite closeAuction_same, Hdoc. cbn [fmap option_fmap option_map].
      eexists. split; [done|]. case_bool_decide as Hc; [|by left]. right. by destruct Hc.
    + rewrite closeAuction_other by done. exists doc. by split; [|left].
Qed.

(** X6.  Stored documents are never removed and never rewritten, except for
    the one transition of the status from [Active] to [Completed]: through
    every run of the process a document is either what it was or what it was
    with status [Completed], having been [Active]; a [Completed] document
    stays exactly as it is. *)
Theorem documents_evolve (events : list Event) (p p' : Process) (id : string)
    (doc : AuctionEntityMongo) :
  run p events = Some p' →
  Collection (repo p) !! id = Some doc →
  ∃ doc', Collection (repo p') !! id = Some doc'
          ∧ evolved doc doc'
          ∧ (Status doc = Completed → doc' = doc).
Proof.
  revert p doc. induction events as [|e rest IH]; intros p doc; cbn [run].
  - intros [= <-] Hdoc. exists doc. split; [done|]. by split; [left|].
  - destruct (step p e) as [q|] eqn:Hstep; [|done]. intros Hrun Hdoc.
    destruct (step_evolved p q e id doc Hstep Hdoc) as (doc1 & Hdoc1 & Hev1).
    destruct (IH q doc1 Hrun Hdoc1) as (doc' & Hdoc' & Hev & _).
    exists doc'. split; [done|].
    pose proof (evolved_trans _ _ _ Hev1 Hev) as Hall. split; [done|].
    intros Hdone. destruct Hall as [-> | [Hactive _]]; [done | congruence].
Qed.

Lemma documents_evolve_witness :
  let done := sample.document "test-auction-123" Completed 90 in
  let live := sample.document "test-auction-expired" Active 95 in
  let ar := sample.repository [done; live]
              [("test-auction-123", 92000000000); ("test-auction-expired", 97000000000)] in
  let events :=
    [CallCreateAuction false (sample.entity "test-auction-123" Active 99000000000);
     TickerFires; SelectTick 100000000000 (λ _, false);
     CallLoadActiveAuctions false false (λ _, 100000000000); CallClose; SelectDone] in
  (Collection ar !! "test-auction-123" = Some done
   ∧ Collection ar !! "test-auction-expired" = Some live)
  ∧ (λ p, Collection (repo p) !! "test-auction-123") <$> run (started ar) events
    = Some (Some done)
  ∧ (λ p, Collection (repo p) !! "test-auction-expired") <$> run (started ar) events
    = Some (Some (set_Status Completed live)).
Proof.
  intros done live ar events.
  assert (Hdone : Collection ar !! "test-auction-123" = Some done) by (vm_compute; reflexivity).
  assert (Hlive : Collection ar !! "test-auction-expired" = Some live)
    by (vm_compute; reflexivity).
  split; [by split|].
  destruct (run (started ar) events) as [p'|] eqn:Hrun; [|vm_compute in Hrun; discriminate].
  destruct (documents_evolve events (started ar) p' "test-auction-123" done Hrun Hdone)
    as (doc' & Hdoc' & _ & Hfinal).
  cbn [fmap option_fmap option_map]. split.
  - by rewrite Hdoc', (Hfinal eq_refl).
  - vm_compute in Hrun. injection Hrun as <-. vm_compute. reflexivity.
Defined.

Lemma loadEach_is_Some (interval : time.Duration) (clock : nat → time.Time) (i : nat)
    (auctions : list AuctionEntityMongo) (index : gmap string time.Time) (id : string) :
  is_Some ((loadEach interval clock i auctions index).1 !! id) →
  is_Some (index !! id) ∨ id ∈ Id <$> auctions.
Proof.
  revert i index. induction auctions as [|auction rest IH]; intros i index; [by left|].
  rewrite loadEach_cons, fmap_cons, elem_of_cons.
  destruct (time.Before (clock i) (loadedEndTime interval auction)).
  - intros [Hid | Hin]%IH; [|by right; right].
    rewrite lookup_insert in Hid. case_decide as Heq; [right; by left | by left].
  - cbn [fst]. intros [Hid | Hin]%IH; [by left | by right; right].
Qed.

Lemma step_indexed_stored (p p' : Process) (e : Event) :
  step p e = Some p' →
  keyed (Collection (repo p)) →
  indexed_stored (repo p) →
  indexed_stored (repo p').
Proof.
  intros Hstep Hkeyed Hinv id.
  destruct e as [|now faults| | |fault auctionEntity|findFault decodeFault clock|n fault];
    cbn [step] in Hstep.
  - destruct (closer p); [|done]. injection Hstep as <-. apply Hinv.
  - destruct (closer p); [|done]. destruct (tickerC p); [|done]. injection Hstep as <-.
    cbn [repo]. rewrite closeExpiredAuctions_eq, closeEach_index, closeEach_Collection.
    case_bool_decide; [by intros [? ?]|]. intros Hid%Hinv. by rewrite fmap_is_Some.
  - destruct (closer p); [|done]. destruct (auctionCloserCtx (repo p)); [|done].
    injection Hstep as <-. apply Hinv.
  - injection Hstep as <-. apply Hinv.
  - injection Hstep as <-. cbn [repo].
    destruct (mongo.InsertOne fault (Collection (repo p)) (auctionEntityMongo auctionEntity))
      as [c|] eqn:Hins.
    + destruct (CreateAuction_ok (repo p) auctionEntity fault c Hins) as [-> ->].
      cbn [fst Collection activeAuctions]. rewrite !lookup_insert.
      case_decide; [by eexists | apply Hinv].
    + rewrite (CreateAuction_fail (repo p) auctionEntity fault Hins). apply Hinv.
  - destruct (findFault || decodeFault) eqn:Hfault.
    + destruct (LoadActiveAuctions_fault findFault decodeFault clock (repo p) Hfault)
        as (Hsame & _).
      destruct (LoadActiveAuctions findFault decodeFault clock (repo p))
        as [[ar err] started]. cbn [fst] in Hsame. injection Hstep as <-. cbn [repo].
      rewrite Hsame. apply Hinv.
    + apply orb_false_elim in Hfault as [-> ->].
      rewrite LoadActiveAuctions_ok in Hstep. injection Hstep as <-.
      cbn [repo activeAuctions Collection with_activeAuctions].
      intros [Hid | Hin]%loadEach_is_Some; [by apply Hinv|].
      apply list_elem_of_fmap in Hin as (auction & -> & Hin).
      apply (Find_spec (Collection (repo p)) Active _ Hkeyed eq_refl) in Hin as [Hdoc _].
      by eexists.
  - destruct (spawned p !! n) as [auctionID|]; [|done]. injection Hstep as <-. cbn [repo].
    destruct (closeAuction_frame (repo p) auctionID fault) as (-> & _).
    intros Hid%Hinv. destruct (decide (id = auctionID)) as [-> | Hne].
    + by rewrite closeAuction_same, fmap_is_Some.
    + by rewrite closeAuction_other.
Qed.

(** X7.  The index never names an auction the collection does not hold: if
    the collection is keyed by [_id] and every identifier of the index has a
    document, both still hold after every run of the process.  They hold for
    a new repository over a keyed collection, whose index is empty. *)
Theorem index_within_collection (events : list Event) (p p' : Process) :
  keyed (Collection (repo p)) →
  indexed_stored (repo p) →
  run p events = Some p' →
  keyed (Collection (repo p')) ∧ indexed_stored (repo p').
Proof.
  revert p. induction events as [|e rest IH]; intros p Hkeyed Hinv; cbn [run].
  - by intros [= <-].
  - destruct (step p e) as [q|] eqn:Hstep; [|done].
    destruct (step_frame p q e Hstep) as (_ & _ & Hkeyed' & _).
    apply IH; [by apply Hkeyed' | by eapply step_indexed_stored].
Qed.

Lemma index_within_collection_witness :
  let ar := NewAuctionRepository sample.ParseDuration {["AUCTION_INTERVAL" := "2s"]}
              (Collection (sample.repository
                             [sample.document "test-auction-active" Active 100] [])) in
  let events :=
    [CallCreateAuction false (sample.entity "test-auction-123" Active 97000000000);
     CallLoadActiveAuctions false false (λ _, 100000000000);
     TickerFires; SelectTick 100000000000 (λ _, true)] in
  (keyed (Collection ar) ∧ indexed_stored ar)
  ∧ ∃ p', run (started ar) events = Some p'
          ∧ indexed_stored (repo p')
          ∧ is_Some (activeAuctions (repo p') !! "test-auction-123")
          ∧ is_Some (activeAuctions (repo p') !! "test-auction-active").
Proof.
  intros ar events.
  assert (Hkeyed : keyed (Collection ar)).
  { unfold keyed. apply (bool_decide_unpack _). vm_compute. exact I. }
  assert (Hinv : indexed_stored ar).
  { intros id. cbn. rewrite lookup_empty. by intros [? ?]. }
  split; [by split|].
  destruct (run (started ar) events) as [p'|] eqn:Hrun; [|vm_compute in Hrun; discriminate].
  exists p'. split; [done|].
  split; [exact (proj2 (index_within_collection events (started ar) p' Hkeyed Hinv Hrun))|].
  vm_compute in Hrun. injection Hrun as <-.
  split; apply (bool_decide_unpack _); vm_compute; exact I.
Defined.

(** X8.  Once the sweeper goroutine has returned nothing removes an index
    entry any more: the entries present stay, and an auction created
    afterwards is registered and stays registered through every
    continuation. *)
Theorem index_grows_after_return (events : list Event) (p p' : Process)
    (auctionEntity : Auction) :
  closer p = Returned →
  Collection (repo p) !! auction_entity.Id auctionEntity = None →
  run p (CallCreateAuction false auctionEntity :: events) = Some p' →
  closer p' = Returned
  ∧ is_Some (activeAuctions (repo p') !! auction_entity.Id auctionEntity)
  ∧ ∀ id, is_Some (activeAuctions (repo p) !! id) → is_Some (activeAuctions (repo p') !! id).
Proof.
  intros Hret Hfree Hrun.
  destruct (run_frame _ p p' Hrun) as (_ & _ & _ & Hstay & Hkeep).
  destruct (Hstay Hret) as [Hret' Hnotick]. specialize (Hkeep Hnotick).
  split; [done|]. split; [|done].
  cbn [run step] in Hrun.
  destruct (run_frame events _ p' Hrun) as (_ & _ & _ & Hstay1 & Hkeep1).
  cbn [closer] in Hstay1. destruct (Hstay1 Hret) as [_ Hnotick1].
  apply (Hkeep1 Hnotick1). cbn [repo].
  assert (Hins : mongo.InsertOne false (Collection (repo p)) (auctionEntityMongo auctionEntity)
                 = Some (<[auction_entity.Id auctionEntity := auctionEntityMongo auctionEntity]>
                           (Collection (repo p)))).
  { unfold mongo.InsertOne. cbn [auctionEntityMongo Id]. by rewrite Hfree. }
  destruct (CreateAuction_ok (repo p) auctionEntity false _ Hins) as [-> _].
  cbn [fst activeAuctions]. rewrite lookup_insert_eq. by eexists.
Qed.

Lemma index_grows_after_return_witness :
  let ar := sample.repository [] [("a", 97000000000)] in
  let p := {| repo := Close ar; tickerC := false; closer := Returned; spawned := [] |} in
  let auctionEntity := sample.entity "test-auction-123" Active 97000000000 in
  run (started ar) [CallClose; SelectDone] = Some p
  ∧ (closer p = Returned ∧ Collection (repo p) !! "test-auction-123" = None)
  ∧ ∃ p', run p [CallCreateAuction false auctionEntity; TickerFires] = None
          ∧ run p [CallCreateAuction false auctionEntity; CallClose] = Some p'
          ∧ is_Some (activeAuctions (repo p') !! "test-auction-123")
          ∧ is_Some (activeAuctions (repo p') !! "a").
Proof.
  intros ar p auctionEntity.
  split; [reflexivity|]. split; [by split|].
  destruct (run p [CallCreateAuction false auctionEntity; CallClose]) as [p'|] eqn:Hrun;
    [|vm_compute in Hrun; discriminate].
  exists p'. split; [reflexivity|]. split; [done|].
  destruct (index_grows_after_return [CallClose] p p' auctionEntity eq_refl eq_refl Hrun)
    as (_ & Hnew & Hold).
  split; [exact Hnew|]. apply Hold. apply (bool_decide_unpack _). vm_compute. exact I.
Defined.

(** ** Reconciliation, continued *)

Lemma activeDocuments_lookup (ar : AuctionRepository) (auction : AuctionEntityMongo) :
  keyed (Collection ar) →
  auction ∈ activeDocuments ar
  ↔ Collection ar !! Id auction = Some auction ∧ Status auction = Active.
Proof. intros Hkeyed. by apply (Find_spec (Collection ar) Active _ Hkeyed eq_refl). Qed.

(** X9.  [LoadActiveAuctions] looks at [Active] documents only and never
    cleans the index: for an identifier without an [Active] document the
    index entry, stale or not, is left as it is and no close is started, and
    the collection is never written.  When [Find] or the decoding fails the
    call returns an error, leaves the whole repository as it is and starts
    nothing. *)
Theorem LoadActiveAuctions_skips (findFault decodeFault : bool) (clock : nat → time.Time)
    (ar : AuctionRepository) (id : string) :
  keyed (Collection ar) →
  let result := LoadActiveAuctions findFault decodeFault clock ar in
  Collection result.1.1 = Collection ar
  ∧ ((∀ doc, Collection ar !! id = Some doc → Status doc ≠ Active) →
       activeAuctions result.1.1 !! id = activeAuctions ar !! id ∧ id ∉ result.2)
  ∧ (findFault || decodeFault = true →
       result.1.1 = ar ∧ result.1.2 ≠ None ∧ result.2 = [])
  ∧ (findFault || decodeFault = false → result.1.2 = None).
Proof.
  intros Hkeyed result. unfold result.
  split; [apply LoadActiveAuctions_frame|].
  split; [|split; [apply LoadActiveAuctions_fault|]].
  - intros Hinactive. destruct (findFault || decodeFault) eqn:Hfault.
    + destruct (LoadActiveAuctions_fault findFault decodeFault clock ar Hfault)
        as (-> & _ & ->). split; [done | apply not_elem_of_nil].
    + apply orb_false_elim in Hfault as [-> ->]. rewrite LoadActiveAuctions_ok.
      cbn [fst snd activeAuctions with_activeAuctions]. fold (activeDocuments ar).
      apply loadEach_other.
      intros (auction & -> & [Hdoc Hactive]%activeDocuments_lookup)%list_elem_of_fmap;
        [|done].
      by apply (Hinactive auction).
  - intros [-> ->]%orb_false_elim. by rewrite LoadActiveAuctions_ok.
Qed.

Lemma LoadActiveAuctions_skips_witness :
  let ar := sample.repository
              [sample.document "test-auction-123" Completed 90;
               sample.document "test-auction-active" Active 100]
              [("test-auction-123", 92000000000); ("gone", 50000000000)] in
  let clock := λ _ : nat, 100500000000 in
  keyed (Collection ar)
  ∧ activeAuctions (LoadActiveAuctions false false clock ar).1.1 !! "test-auction-123"
    = Some 92000000000
  ∧ activeAuctions (LoadActiveAuctions false false clock ar).1.1 !! "gone"
    = Some 50000000000
  ∧ (LoadActiveAuctions false false clock ar).2 = []
  ∧ (LoadActiveAuctions false true clock ar).1.1 = ar.
Proof.
  intros ar clock.
  assert (Hkeyed : keyed (Collection ar)).
  { unfold keyed. apply (bool_decide_unpack _). vm_compute. exact I. }
  split; [exact Hkeyed|].
  destruct (LoadActiveAuctions_skips false false clock ar "test-auction-123" Hkeyed)
    as (_ & Hstale & _).
  destruct (LoadActiveAuctions_skips false false clock ar "gone" Hkeyed)
    as (_ & Hgone & _).
  destruct (LoadActiveAuctions_skips false true clock ar "gone" Hkeyed)
    as (_ & _ & Hfault & _).
  split.
  { refine (eq_trans (proj1 (Hstale _)) ltac:(vm_compute; reflexivity)).
    intros doc Hdoc. vm_compute in Hdoc. injection Hdoc as <-. discriminate. }
  split.
  { refine (eq_trans (proj1 (Hgone _)) ltac:(vm_compute; reflexivity)).
    intros doc Hdoc. vm_compute in Hdoc. discriminate. }
  split; [vm_compute; reflexivity|]. exact (proj1 (Hfault eq_refl)).
Defined.

Lemma loadEach_spawned (interval : time.Duration) (clock : nat → time.Time) (i : nat)
    (auctions : list AuctionEntityMongo) (index index' : gmap string time.Time) :
  (loadEach interval clock i auctions index).2
  = (loadEach interval clock i auctions index').2.
Proof.
  revert i index index'. induction auctions as [|auction rest IH]; intros i index index';
    [done|].
  rewrite !loadEach_cons. destruct (time.Before (clock i) (loadedEndTime interval auction)).
  - apply IH.
  - cbn [snd]. f_equal. apply IH.
Qed.

Lemma loadEach_again (interval : time.Duration) (clock : nat → time.Time)
    (auctions : list AuctionEntityMongo) (index : gmap string time.Time) :
  NoDup (Id <$> auctions) →
  (loadEach interval clock 0 auctions (loadEach interval clock 0 auctions index).1).1
  = (loadEach interval clock 0 auctions index).1.
Proof.
  intros Hnd. apply map_eq. intros id.
  destruct (decide (id ∈ Id <$> auctions)) as [Hin | Hout].
  - apply list_elem_of_fmap in Hin as (auction & -> & [k Hk]%list_elem_of_lookup_1).
    pose proof (loadEach_lookup interval clock 0 k auctions index auction Hnd Hk)
      as [Hin1 Hout1].
    pose proof (loadEach_lookup interval clock 0 k auctions
                  (loadEach interval clock 0 auctions index).1 auction Hnd Hk)
      as [Hin2 Hout2].
    cbn zeta in *.
    destruct (decide (clock (0 + k)%nat < loadedEndTime interval auction)) as [Hlt | Hge].
    + destruct (Hin1 Hlt) as [-> _]. by destruct (Hin2 Hlt) as [-> _].
    + by destruct (Hout2 Hge) as [-> _].
  - by destruct (loadEach_other interval clock 0 auctions
                   (loadEach interval clock 0 auctions index).1 id Hout) as [-> _].
Qed.

(** X10.  Start-up idempotence: a second [LoadActiveAuctions] under the same
    clock readings leaves the repository the first one left, index
    included, and starts a close for the same identifiers again. *)
Theorem LoadActiveAuctions_twice (clock : nat → time.Time) (ar : AuctionRepository) :
  keyed (Collection ar) →
  let first := LoadActiveAuctions false false clock ar in
  let second := LoadActiveAuctions false false clock first.1.1 in
  second.1.1 = first.1.1 ∧ second.1.2 = None ∧ second.2 = first.2.
Proof.
  intros Hkeyed first second. unfold second, first.
  destruct (Find_spec (Collection ar) Active _ Hkeyed eq_refl) as [Hnd _].
  rewrite !LoadActiveAuctions_ok.
  cbn [fst snd Collection activeAuctions auctionInterval with_activeAuctions].
  fold (activeDocuments ar).
  split; [|split; [done | apply loadEach_spawned]].
  unfold with_activeAuctions.
  cbn [Collection activeAuctions auctionInterval auctionCloserCtx].
  by rewrite loadEach_again.
Qed.

Lemma LoadActiveAuctions_twice_witness :
  let ar := sample.repository
              [sample.document "test-auction-active" Active 100;
               sample.document "test-auction-expired" Active 95] [] in
  let clock := λ _ : nat, 100500000000 in
  let first := LoadActiveAuctions false false clock ar in
  keyed (Collection ar)
  ∧ (LoadActiveAuctions false false clock first.1.1).1.1 = first.1.1
  ∧ (LoadActiveAuctions false false clock first.1.1).2 = ["test-auction-expired"]
  ∧ activeAuctions first.1.1 !! "test-auction-active" = Some 102000000000.
Proof.
  intros ar clock first.
  assert (Hkeyed : keyed (Collection ar)).
  { unfold keyed. apply (bool_decide_unpack _). vm_compute. exact I. }
  split; [exact Hkeyed|].
  destruct (LoadActiveAuctions_twice clock ar Hkeyed) as (Hsame & _ & Hspawned).
  split; [exact Hsame|].
  split; [exact (eq_trans Hspawned ltac:(vm_compute; reflexivity))|].
  vm_compute. reflexivity.
Defined.

Lemma run_drain (ids : list string) (p : Process) :
  spawned p = ids →
  ∃ p', run p (drain (length ids)) = Some p'
        ∧ spawned p' = []
        ∧ activeAuctions (repo p') = activeAuctions (repo p)
        ∧ ∀ id, Collection (repo p') !! id
                = (if bool_decide (id ∈ ids) then closed (λ _, false) id else λ doc, doc)
                  <$> Collection (repo p) !! id.
Proof.
  revert p. induction ids as [|auctionID rest IH]; intros p Hids.
  - exists p. split; [done|]. split; [done|]. split; [done|]. intros id.
    rewrite bool_decide_eq_false_2 by apply not_elem_of_nil.
    by destruct (Collection (repo p) !! id).
  - cbn [length drain replicate run step]. rewrite Hids. cbn [lookup list_lookup].
    fold (drain (length rest)).
    destruct (IH {| repo := (closeAuction false (repo p) auctionID).1;
                    tickerC := tickerC p; closer := closer p;
                    spawned := delete 0%nat (auctionID :: rest) |} eq_refl)
      as (p' & Hrun & Hnone & Hidx & Hcoll).
    exists p'. split; [done|]. split; [done|]. cbn [repo] in Hidx, Hcoll.
    destruct (closeAuction_frame (repo p) auctionID false) as (Hframe & _).
    split; [by rewrite Hidx|]. intros id. rewrite Hcoll.
    destruct (decide (id = auctionID)) as [-> | Hne].
    + rewrite closeAuction_same. rewrite (bool_decide_eq_true_2 (_ ∈ _ :: _)) by left.
      destruct (Collection (repo p) !! auctionID) as [doc|]; [|done].
      cbn [fmap option_fmap option_map].
      change (if bool_decide (false = false ∧ Status doc = Active)
              then set_Status Completed doc else doc)
        with (closed (λ _, false) auctionID doc).
      case_bool_decide; [by rewrite closed_closed | done].
    + rewrite closeAuction_other by done.
      rewrite (bool_decide_ext (id ∈ auctionID :: rest) (id ∈ rest)); [done|].
      rewrite elem_of_cons. intuition congruence.
Qed.

(** X11.  Reconciliation after a restart, to the end: starting from an empty
    index, after [LoadActiveAuctions] and after the goroutines it started
    have run without a driver fault, every [Active] document read while its
    reloaded expiry was ahead is registered with that expiry and unchanged,
    and every other [Active] document read is [Completed], with all other
    fields as stored, and absent from the index. *)
Theorem reconciliation_completes (clock : nat → time.Time) (ar : AuctionRepository) :
  keyed (Collection ar) →
  activeAuctions ar = ∅ →
  ∃ p', run (started ar)
          (CallLoadActiveAuctions false false clock
             :: drain (length (LoadActiveAuctions false false clock ar).2)) = Some p'
        ∧ spawned p' = []
        ∧ ∀ k auction, activeDocuments ar !! k = Some auction →
            let endTime := loadedEndTime (auctionInterval ar) auction in
            (clock k < endTime →
               activeAuctions (repo p') !! Id auction = Some endTime
               ∧ Collection (repo p') !! Id auction = Some auction)
            ∧ (¬ clock k < endTime →
               activeAuctions (repo p') !! Id auction = None
               ∧ Collection (repo p') !! Id auction = Some (set_Status Completed auction)).
Proof.
  intros Hkeyed Hempty. cbn [run step].
  destruct (LoadActiveAuctions false false clock ar) as [[ar1 err] ids] eqn:Hload.
  cbn [snd started spawned app repo tickerC closer]. rewrite Hload.
  destruct (run_drain ids {| repo := ar1; tickerC := false; closer := Selecting;
                             spawned := ids |} eq_refl)
    as (p' & Hrun & Hnone & Hidx & Hcoll).
  exists p'. split; [done|]. split; [done|]. cbn [repo] in Hidx, Hcoll.
  intros k auction Hk.
  pose proof (LoadActiveAuctions_lookup clock ar k auction Hkeyed Hk) as [Hin Hout].
  pose proof (LoadActiveAuctions_frame false false clock ar) as (Hsame & _).
  rewrite Hload in Hin, Hout, Hsame. cbn [fst snd] in Hin, Hout, Hsame.
  assert (Hdoc : Collection ar !! Id auction = Some auction ∧ Status auction = Active).
  { apply activeDocuments_lookup; [done|]. by eapply list_elem_of_lookup_2. }
  destruct Hdoc as [Hdoc Hactive]. rewrite Hidx, Hcoll, Hsame, Hdoc.
  cbn [fmap option_fmap option_map]. split.
  - intros Hlt. destruct (Hin Hlt) as [-> Hsp]. by rewrite bool_decide_eq_false_2.
  - intros Hge. destruct (Hout Hge) as [Hsp ->]. rewrite Hempty, lookup_empty.
    split; [done|]. rewrite bool_decide_eq_true_2 by done. unfold closed.
    by rewrite bool_decide_eq_true_2.
Qed.

Lemma reconciliation_completes_witness :
  let live := sample.document "test-auction-active" Active 100 in
  let late := sample.document "test-auction-expired" Active 95 in
  let ar := sample.repository [live; late] [] in
  let clock := λ _ : nat, 100500000000 in
  (keyed (Collection ar) ∧ activeAuctions ar = ∅
   ∧ activeDocuments ar = [late; live])
  ∧ ∃ p', run (started ar) [CallLoadActiveAuctions false false clock; GoCloseAuction 0 false]
          = Some p'
          ∧ activeAuctions (repo p') !! "test-auction-active" = Some 102000000000
          ∧ Collection (repo p') !! "test-auction-active" = Some live
          ∧ activeAuctions (repo p') !! "test-auction-expired" = None
          ∧ Collection (repo p') !! "test-auction-expired" = Some (set_Status Completed late).
Proof.
  intros live late ar clock.
  assert (Hkeyed : keyed (Collection ar)).
  { unfold keyed. apply (bool_decide_unpack _). vm_compute. exact I. }
  assert (Hdocs : activeDocuments ar = [late; live]) by (vm_compute; reflexivity).
  split; [by repeat split|].
  destruct (reconciliation_completes clock ar Hkeyed eq_refl) as (p' & Hrun & _ & Hall).
  exists p'. split; [exact Hrun|].
  assert (Hk1 : activeDocuments ar !! 1%nat = Some live) by by rewrite Hdocs.
  assert (Hk0 : activeDocuments ar !! 0%nat = Some late) by by rewrite Hdocs.
  destruct (Hall 1%nat live Hk1) as [Hin _]. destruct (Hall 0%nat late Hk0) as [_ Hout].
  destruct (Hin ltac:(vm_compute; reflexivity)) as [Hidx Hdoc].
  destruct (Hout ltac:(vm_compute; discriminate)) as [Hidx' Hdoc'].
  by repeat split.
Defined.

(** X12.  Early close after a restart: the reloaded expiry is computed from
    the timestamp in whole seconds, so when the clock lies between the
    reloaded expiry and the expiry registered at creation, a sweep of the
    process that created the auction does not select it, while
    [LoadActiveAuctions] in a restarted process, whose index is empty,
    starts closing it and does not register it. *)
Theorem restart_closes_early (clock : nat → time.Time) (ar : AuctionRepository)
    (auctionEntity : Auction) :
  keyed (Collection ar) →
  Collection ar !! auction_entity.Id auctionEntity = None →
  auction_entity.Status auctionEntity = Active →
  let id := auction_entity.Id auctionEntity in
  let timestamp := auction_entity.Timestamp auctionEntity in
  let ar1 := (CreateAuction false ar auctionEntity).1 in
  let restarted := with_activeAuctions ∅ ar1 in
  (∀ i, time.Add (time.Unix (time.Unix_of timestamp) 0) (auctionInterval ar) ≤ clock i
        ∧ clock i ≤ time.Add timestamp (auctionInterval ar)) →
  (∀ i, id ∉ (expiredAuctions (clock i) ar1).2)
  ∧ id ∈ (LoadActiveAuctions false false clock restarted).2
  ∧ activeAuctions (LoadActiveAuctions false false clock restarted).1.1 !! id = None.
Proof.
  intros Hkeyed Hfree Hactive id timestamp ar1 restarted Hwindow.
  assert (Hins : mongo.InsertOne false (Collection ar) (auctionEntityMongo auctionEntity)
                 = Some (<[id := auctionEntityMongo auctionEntity]> (Collection ar))).
  { unfold mongo.InsertOne. cbn [auctionEntityMongo Id]. by rewrite Hfree. }
  destruct (CreateAuction_ok ar auctionEntity false _ Hins) as [Hcreate _].
  destruct (CreateAuction_frame ar auctionEntity false) as (Hint & _ & Hkeyed1 & _).
  fold ar1 in Hint, Hkeyed1. specialize (Hkeyed1 Hkeyed).
  split.
  - intros i (endTime & He & Hlt)%elem_of_expiredAuctions. unfold ar1 in He.
    rewrite Hcreate in He. cbn [fst activeAuctions] in He.
    rewrite lookup_insert_eq in He. injection He as <-.
    destruct (Hwindow i) as [_ Hle]. unfold time.Add, timestamp in *. lia.
  - assert (Hin : auctionEntityMongo auctionEntity ∈ activeDocuments restarted).
    { apply activeDocuments_lookup; [done|]. split; [|done].
      cbn [restarted with_activeAuctions Collection]. unfold ar1. rewrite Hcreate.
      cbn [fst Collection auctionEntityMongo Id]. by rewrite lookup_insert_eq. }
    apply list_elem_of_lookup_1 in Hin as [k Hk].
    destruct (LoadActiveAuctions_lookup clock restarted k _ Hkeyed1 Hk) as [_ Hout].
    cbn [auctionEntityMongo Timestamp Id restarted with_activeAuctions auctionInterval
           activeAuctions] in Hout.
    rewrite Hint, lookup_empty in Hout. apply Hout.
    destruct (Hwindow k) as [Hge _]. unfold time.Add, timestamp in *. lia.
Qed.

Lemma restart_closes_early_witness :
  let ar := sample.repository [] [] in
  let auctionEntity := sample.entity "test-auction-123" Active 100750000000 in
  let clock := λ _ : nat, 102500000000 in
  let ar1 := (CreateAuction false ar auctionEntity).1 in
  (∀ i, 102000000000 ≤ clock i ∧ clock i ≤ 102750000000)
  ∧ activeAuctions ar1 !! "test-auction-123" = Some 102750000000
  ∧ ("test-auction-123" ∉ (expiredAuctions 102500000000 ar1).2)
  ∧ "test-auction-123"
    ∈ (LoadActiveAuctions false false clock (with_activeAuctions ∅ ar1)).2.
Proof.
  intros ar auctionEntity clock ar1.
  assert (Hwindow : ∀ i, 102000000000 ≤ clock i ∧ clock i ≤ 102750000000)
    by (intros i; unfold clock; lia).
  destruct (restart_closes_early clock ar auctionEntity keyed_empty eq_refl eq_refl Hwindow)
    as (Hsweep & Hload & _).
  split; [exact Hwindow|]. split; [vm_compute; reflexivity|].
  split; [exact (Hsweep 0%nat) | exact Hload].
Defined.

(** ** Creation, continued *)

(** X13.  Creation followed by a forced sweep, as [TestAuctionAutoClose]
    exercises it: for an [Active] auction with a free identifier, a tick
    whose [now] is after timestamp plus interval and whose update does not
    fault leaves it [Completed] and out of the index; a tick that is not
    after it, or whose update faults, leaves it [Active] and registered. *)
Theorem create_then_sweep (now : time.Time) (faults : string → bool)
    (ar : AuctionRepository) (auctionEntity : Auction) :
  Collection ar !! auction_entity.Id auctionEntity = None →
  auction_entity.Status auctionEntity = Active →
  let id := auction_entity.Id auctionEntity in
  let endTime := time.Add (auction_entity.Timestamp auctionEntity) (auctionInterval ar) in
  let ar2 := (closeExpiredAuctions now faults (CreateAuction false ar auctionEntity).1).1 in
  (endTime < now ∧ faults id = false →
     Collection ar2 !! id = Some (set_Status Completed (auctionEntityMongo auctionEntity))
     ∧ activeAuctions ar2 !! id = None)
  ∧ (¬ (endTime < now ∧ faults id = false) →
     Collection ar2 !! id = Some (auctionEntityMongo auctionEntity)
     ∧ activeAuctions ar2 !! id = Some endTime).
Proof.
  intros Hfree Hactive id endTime ar2.
  assert (Hins : mongo.InsertOne false (Collection ar) (auctionEntityMongo auctionEntity)
                 = Some (<[id := auctionEntityMongo auctionEntity]> (Collection ar))).
  { unfold mongo.InsertOne. cbn [auctionEntityMongo Id]. by rewrite Hfree. }
  destruct (CreateAuction_ok ar auctionEntity false _ Hins) as [Hcreate _].
  fold id endTime in Hcreate.
  set (ar1 := (CreateAuction false ar auctionEntity).1) in *.
  assert (Hidx : activeAuctions ar1 !! id = Some endTime).
  { unfold ar1. rewrite Hcreate. cbn [fst activeAuctions]. by rewrite lookup_insert_eq. }
  assert (Hdoc : Collection ar1 !! id = Some (auctionEntityMongo auctionEntity)).
  { unfold ar1. rewrite Hcreate. cbn [fst Collection]. by rewrite lookup_insert_eq. }
  assert (Hexp : id ∈ (expiredAuctions now ar1).2 ↔ endTime < now).
  { rewrite elem_of_expiredAuctions. split.
    - intros (e & He & Hlt). rewrite Hidx in He. by injection He as <-.
    - intros Hlt. by exists endTime. }
  unfold ar2. rewrite closeExpiredAuctions_eq, closeEach_Collection, closeEach_index, Hdoc.
  cbn [fmap option_fmap option_map]. split.
  - intros [Hlt Hf]. assert (Hin : id ∈ (expiredAuctions now ar1).2) by by apply Hexp.
    rewrite (bool_decide_eq_true_2 (id ∈ _)) by done.
    rewrite (bool_decide_eq_true_2 (_ ∧ _)) by done.
    unfold closed. by rewrite bool_decide_eq_true_2.
  - intros Hnot. rewrite (bool_decide_eq_false_2 (_ ∧ _)).
    + split; [|done]. case_bool_decide as Hin; [|done]. unfold closed.
      rewrite bool_decide_eq_false_2; [done|]. intros [Hf _]. apply Hnot.
      by split; [apply Hexp|].
    + intros [Hin Hf]. apply Hnot. by split; [apply Hexp|].
Qed.

Lemma create_then_sweep_witness :
  let now := 100000000000 in
  let auctionEntity := sample.entity "test-auction-123" Active (time.Add now (-3 * time.Second)) in
  let ar := sample.repository [] [] in
  let swept := λ at_ faults,
    (closeExpiredAuctions at_ faults (CreateAuction false ar auctionEntity).1).1 in
  (99000000000 < now ∧ ¬ 99000000000 < 98000000000)
  ∧ Status <$> Collection (swept now (λ _, false)) !! "test-auction-123" = Some Completed
  ∧ activeAuctions (swept now (λ _, false)) !! "test-auction-123" = None
  ∧ Status <$> Collection (swept 98000000000 (λ _, false)) !! "test-auction-123" = Some Active
  ∧ activeAuctions (swept now (λ _, true)) !! "test-auction-123" = Some 99000000000.
Proof.
  intros now auctionEntity ar swept.
  assert (Hpast : 99000000000 < now) by (unfold now; lia).
  assert (Hnot : ¬ 99000000000 < 98000000000) by lia.
  split; [by split|].
  destruct (create_then_sweep now (λ _, false) ar auctionEntity eq_refl eq_refl)
    as [Hclosed _].
  destruct (create_then_sweep 98000000000 (λ _, false) ar auctionEntity eq_refl eq_refl)
    as [_ Hearly].
  destruct (create_then_sweep now (λ _, true) ar auctionEntity eq_refl eq_refl)
    as [_ Hfault].
  destruct (Hclosed (conj Hpast eq_refl)) as [Hdoc Hidx].
  destruct (Hearly ltac:(intros [Hlt _]; exact (Hnot Hlt))) as [Hdoc' _].
  destruct (Hfault ltac:(intros [_ Hf]; discriminate Hf)) as [_ Hidx'].
  split; [exact (f_equal (fmap Status) Hdoc)|]. split; [exact Hidx|].
  split; [exact (f_equal (fmap Status) Hdoc')|]. exact Hidx'.
Defined.

(** X14.  [CreateAuction] touches its own identifier only, and an identifier
    is created once: documents and index entries under other identifiers
    are as before; and after a successful creation every further
    [CreateAuction] with the same identifier, whatever the rest of the
    entity, fails with the insert error and changes nothing, so neither the
    stored document nor the registered expiry can be overwritten. *)
Theorem CreateAuction_once (fault fault' : bool) (ar : AuctionRepository)
    (auctionEntity again : Auction) (other : string) :
  auction_entity.Id again = auction_entity.Id auctionEntity →
  other ≠ auction_entity.Id auctionEntity →
  let ar1 := (CreateAuction fault ar auctionEntity).1 in
  (Collection ar1 !! other = Collection ar !! other
   ∧ activeAuctions ar1 !! other = activeAuctions ar !! other)
  ∧ ((CreateAuction fault ar auctionEntity).2 = None →
       CreateAuction fault' ar1 again
       = (ar1, Some (NewInternalServerError "Error trying to insert auction"))).
Proof.
  intros Hsame Hother ar1. unfold ar1.
  destruct (mongo.InsertOne fault (Collection ar) (auctionEntityMongo auctionEntity))
    as [c|] eqn:Hins.
  - destruct (CreateAuction_ok ar auctionEntity fault c Hins) as [Hcreate ->].
    rewrite Hcreate. cbn [fst snd Collection activeAuctions].
    split; [by rewrite !lookup_insert_ne|]. intros _.
    apply CreateAuction_fail. unfold mongo.InsertOne. destruct fault'; [done|].
    cbn [Collection auctionEntityMongo Id]. by rewrite Hsame, lookup_insert_eq.
  - rewrite (CreateAuction_fail ar auctionEntity fault Hins). by split.
Qed.

Lemma CreateAuction_once_witness :
  let ar := sample.repository [sample.document "a" Active 90] [("a", 92000000000)] in
  let auctionEntity := sample.entity "test-auction-123" Active 97000000000 in
  let again := sample.entity "test-auction-123" Completed 50000000000 in
  let ar1 := (CreateAuction false ar auctionEntity).1 in
  (auction_entity.Id again = auction_entity.Id auctionEntity
   ∧ "a" ≠ auction_entity.Id auctionEntity
   ∧ (CreateAuction false ar auctionEntity).2 = None)
  ∧ activeAuctions ar1 !! "a" = Some 92000000000
  ∧ (CreateAuction false ar1 again).1 = ar1
  ∧ activeAuctions (CreateAuction false ar1 again).1 !! "test-auction-123" = Some 99000000000.
Proof.
  intros ar auctionEntity again ar1.
  assert (Hother : "a" ≠ auction_entity.Id auctionEntity) by discriminate.
  assert (Hnil : (CreateAuction false ar auctionEntity).2 = None) by reflexivity.
  split; [by repeat split|].
  destruct (CreateAuction_once false false ar auctionEntity again "a" eq_refl Hother)
    as [[_ Hidx] Hfail].
  split; [exact (eq_trans Hidx ltac:(vm_compute; reflexivity))|].
  fold ar1 in Hfail. rewrite (Hfail Hnil). split; [done|]. vm_compute. reflexivity.
Defined.

(** ** What the sweeper cannot reach *)

Lemma step_unattended (p p' : Process) (e : Event) (id : string) (doc : AuctionEntityMongo) :
  isLoadActiveAuctions e = false →
  step p e = Some p' →
  unattended p id doc → unattended p' id doc.
Proof.
  intros Hnoload Hstep (Hdoc & Hidx & Hsp). unfold unattended.
  destruct e as [|now faults| | |fault auctionEntity|findFault decodeFault clock|n fault];
    cbn [step] in Hstep; [| | | | |done|].
  - destruct (closer p); [|done]. by injection Hstep as <-.
  - destruct (closer p); [|done]. destruct (tickerC p); [|done]. injection Hstep as <-.
    cbn [repo spawned].
    assert (Hout : id ∉ (expiredAuctions now (repo p)).2).
    { intros (e & He & _)%elem_of_expiredAuctions. congruence. }
    rewrite closeExpiredAuctions_eq, closeEach_Collection, closeEach_index, Hdoc, Hidx.
    rewrite bool_decide_eq_false_2 by done. split; [done|]. split; [|done].
    by case_bool_decide.
  - destruct (closer p); [|done]. destruct (auctionCloserCtx (repo p)); [|done].
    by injection Hstep as <-.
  - by injection Hstep as <-.
  - injection Hstep as <-. cbn [repo spawned].
    destruct (mongo.InsertOne fault (Collection (repo p)) (auctionEntityMongo auctionEntity))
      as [c|] eqn:Hins.
    + destruct (CreateAuction_ok (repo p) auctionEntity fault c Hins) as [-> ->].
      cbn [fst Collection activeAuctions].
      assert (is_Some (mongo.InsertOne fault (Collection (repo p))
                         (auctionEntityMongo auctionEntity))) as Hsome by by eexists.
      apply InsertOne_Some in Hsome as [_ Hfree].
      assert (auction_entity.Id auctionEntity ≠ id) as Hne by (intros <-; congruence).
      by rewrite !lookup_insert_ne.
    + by rewrite (CreateAuction_fail (repo p) auctionEntity fault Hins).
  - destruct (spawned p !! n) as [auctionID|] eqn:Hn; [|done]. injection Hstep as <-.
    cbn [repo spawned].
    assert (id ≠ auctionID) as Hne.
    { intros ->. apply Hsp. by eapply list_elem_of_lookup_2. }
    destruct (closeAuction_frame (repo p) auctionID fault) as (-> & _).
    rewrite closeAuction_other by done. split; [done|]. split; [done|].
    intros Hin%list_elem_of_delete_inv. by apply Hsp.
Qed.

(** X15.  The sweeper reaches an auction only through the index or through a
    close started by [LoadActiveAuctions].  A stored auction that is in
    neither stays exactly as it is, and in neither, through every run of the
    process in which [LoadActiveAuctions] is not called: an [Active] auction
    stored before the process started is never closed by the ticks, and so is
    one whose start-up close hit a driver fault, since that error is dropped
    and nothing retries it. *)
Theorem unattended_until_load (events : list Event) (p p' : Process) (id : string)
    (doc : AuctionEntityMongo) :
  unattended p id doc →
  forallb (negb ∘ isLoadActiveAuctions) events = true →
  run p events = Some p' →
  unattended p' id doc.
Proof.
  intros Hun Hnoload Hrun. revert p Hun Hnoload Hrun. induction events as [|e rest IH]; intros p Hun; cbn [run forallb].
  - by intros _ [= <-].
  - intros [He Hrest]%andb_prop. destruct (step p e) as [q|] eqn:Hstep; [|done].
    apply IH; [|done]. eapply step_unattended; [|done..].
    cbn [compose] in He. by destruct (isLoadActiveAuctions e).
Qed.

Lemma unattended_until_load_witness :
  let late := sample.document "test-auction-expired" Active 95 in
  let ar := NewAuctionRepository sample.ParseDuration {["AUCTION_INTERVAL" := "2s"]}
              (Collection (sample.repository [late] [])) in
  let clock := λ _ : nat, 100000000000 in
  let sweep := SelectTick 200000000000 (λ _, false) in
  unattended (started ar) "test-auction-expired" late
  ∧ (∃ p', run (started ar) [TickerFires; sweep; TickerFires; sweep] = Some p'
           ∧ Collection (repo p') !! "test-auction-expired" = Some late)
  ∧ (∃ p p', run (started ar) [CallLoadActiveAuctions false false clock;
                               GoCloseAuction 0 true] = Some p
             ∧ unattended p "test-auction-expired" late
             ∧ run p [TickerFires; sweep; CallClose; SelectDone] = Some p'
             ∧ Collection (repo p') !! "test-auction-expired" = Some late).
Proof.
  intros late ar clock sweep.
  assert (Hstart : unattended (started ar) "test-auction-expired" late).
  { split; [vm_compute; reflexivity|]. split; [reflexivity | apply not_elem_of_nil]. }
  split; [exact Hstart|]. split.
  - destruct (run (started ar) [TickerFires; sweep; TickerFires; sweep]) as [p'|] eqn:Hrun;
      [|vm_compute in Hrun; discriminate].
    exists p'. split; [done|].
    by destruct (unattended_until_load [TickerFires; sweep; TickerFires; sweep]
                   (started ar) p' _ late Hstart eq_refl Hrun) as (Hdoc & _).
  - destruct (run (started ar) [CallLoadActiveAuctions false false clock;
                                GoCloseAuction 0 true]) as [p|] eqn:Hload;
      [|vm_compute in Hload; discriminate].
    assert (Hun : unattended p "test-auction-expired" late).
    { vm_compute in Hload. injection Hload as <-.
      split; [vm_compute; reflexivity|]. split; [reflexivity | apply not_elem_of_nil]. }
    destruct (run p [TickerFires; sweep; CallClose; SelectDone]) as [p'|] eqn:Hrun.
    + exists p, p'. split; [done|]. split; [done|]. split; [done|].
      by destruct (unattended_until_load [TickerFires; sweep; CallClose; SelectDone]
                     p p' _ late Hun eq_refl Hrun) as (Hdoc & _).
    + vm_compute in Hload. injection Hload as <-. vm_compute in Hrun. discriminate.
Defined.
